(** * Price-list analyzer: a shallow embedding of [project.py]

    The development models the class [PriceMachine] of [project.py]:
    the column-header resolution ([_search_product_price_weight]), the
    ingestion loop ([load_prices]) and the search ([find_text]).

    Python values are embedded as follows.
    - [str] is a list of Unicode code points ([N]).
    - [int] is [Z].
    - [float] is [spec_float] at binary64 ([prec = 53], [emax = 1024]);
      the operations are the ones of [SpecFloat].
    - an exception is a constructor of [exn]; fallible code returns
      [exn + A].
    - the attribute [self.data] is threaded explicitly through
      [load_prices]. *)

From Stdlib Require Import ZArith NArith List Bool Lia String Ascii.
From Stdlib Require Import Sorted Permutation.
From Stdlib Require Import Floats.SpecFloat.
From Stdlib Require DecimalPos.
Import ListNotations.

Set Implicit Arguments.

(** ** Python [str] *)

Definition codepoint := N.
Definition str := list codepoint.

Module Utf8.

(** Source literals are written as UTF-8 byte strings and decoded
    into code points, as the interpreter does for the source file. *)

Fixpoint bytes (s : string) : list N :=
  match s with
  | EmptyString => []
  | String a t => N_of_ascii a :: bytes t
  end.

Definition cont (b : N) : N := (b mod 64)%N.

Fixpoint decode (bs : list N) : str :=
  match bs with
  | [] => []
  | b0 :: t0 =>
    if (b0 <? 0x80)%N then b0 :: decode t0
    else
      match t0 with
      | [] => []
      | b1 :: t1 =>
        if (b0 <? 0xE0)%N then ((b0 mod 32) * 64 + cont b1)%N :: decode t1
        else
          match t1 with
          | [] => []
          | b2 :: t2 =>
            if (b0 <? 0xF0)%N
            then ((b0 mod 16) * 4096 + cont b1 * 64 + cont b2)%N :: decode t2
            else
              match t2 with
              | [] => []
              | b3 :: t3 =>
                ((b0 mod 8) * 262144 + cont b1 * 4096 + cont b2 * 64 + cont b3)%N
                  :: decode t3
              end
          end
      end
  end.

End Utf8.

(** [u "..."] is the Python literal ['...']. *)
Definition u (s : string) : str := Utf8.decode (Utf8.bytes s).

Definition str_eqb (a b : str) : bool :=
  if list_eq_dec N.eq_dec a b then true else false.

(** [h in [s1, s2, ...]] for a list of strings. *)
Definition str_in_list (h : str) (l : list str) : bool :=
  existsb (str_eqb h) l.

(** [s.startswith(p)] *)
Fixpoint startswith (s p : str) : bool :=
  match p, s with
  | [], _ => true
  | _ :: _, [] => false
  | a :: p', b :: s' => (a =? b)%N && startswith s' p'
  end.

(** [s.endswith(p)] *)
Definition endswith (s p : str) : bool := startswith (rev s) (rev p).

(** [sub in s]: [sub] occurs in [s] as a contiguous run of code points. *)
Fixpoint str_contains (s sub : str) : bool :=
  startswith s sub ||
  match s with
  | [] => false
  | _ :: t => str_contains t sub
  end.

(** [Py_UNICODE_ISSPACE], the characters removed by [str.strip()]. *)
Definition is_space (c : codepoint) : bool :=
  ((0x09 <=? c) && (c <=? 0x0D) || (0x1C <=? c) && (c <=? 0x20)
   || (c =? 0x85) || (c =? 0xA0) || (c =? 0x1680)
   || (0x2000 <=? c) && (c <=? 0x200A)
   || (c =? 0x2028) || (c =? 0x2029) || (c =? 0x202F) || (c =? 0x205F)
   || (c =? 0x3000))%N.

Fixpoint lstrip (s : str) : str :=
  match s with
  | [] => []
  | c :: t => if is_space c then lstrip t else s
  end.

Definition rstrip (s : str) : str := rev (lstrip (rev s)).

(** [s.strip()] *)
Definition strip (s : str) : str := rstrip (lstrip s).

(** The tables of the Unicode character database that the interpreter
    consults and that are not part of the program. *)
Record unicode_db := {
  (** [_PyUnicode_ToLowerFull] *)
  to_lower_full : codepoint -> list codepoint;
  (** [_PyUnicode_IsCased] *)
  is_cased : codepoint -> bool;
  (** [_PyUnicode_IsCaseIgnorable] *)
  is_case_ignorable : codepoint -> bool;
  (** [Py_UNICODE_TODECIMAL], [None] for a character that is no decimal digit *)
  to_decimal : codepoint -> option N
}.

Definition capital_sigma : codepoint := 0x3A3%N.
Definition small_final_sigma : codepoint := 0x3C2%N.
Definition small_sigma : codepoint := 0x3C3%N.

Section StrMethods.

Variable db : unicode_db.

Fixpoint first_not_ignorable (s : str) : option codepoint :=
  match s with
  | [] => None
  | c :: t => if is_case_ignorable db c then first_not_ignorable t else Some c
  end.

(** [handle_capital_sigma] of CPython: [before] holds the characters
    that precede the sigma, nearest first; [after] those that follow. *)
Definition handle_capital_sigma (before after : str) : codepoint :=
  let preceded :=
    match first_not_ignorable before with
    | Some c => is_cased db c
    | None => false
    end in
  let final_sigma :=
    preceded &&
    match first_not_ignorable after with
    | Some c => negb (is_cased db c)
    | None => true
    end in
  if final_sigma then small_final_sigma else small_sigma.

Fixpoint do_lower (before s : str) : str :=
  match s with
  | [] => []
  | c :: t =>
    (if (c =? capital_sigma)%N then [handle_capital_sigma before t]
     else to_lower_full db c) ++ do_lower (c :: before) t
  end.

(** [s.lower()] *)
Definition lower (s : str) : str := do_lower [] s.

End StrMethods.

(** ** Exceptions and the error monad *)

Inductive exn :=
| FileNotFoundError
| NotADirectoryError
| PermissionError
| UnicodeDecodeError
| CsvError
| ValueError
| TypeError
| IndexError
| ZeroDivisionError
| OverflowError.

Definition bind {A B : Type} (m : exn + A) (k : A -> exn + B) : exn + B :=
  match m with
  | inl e => inl e
  | inr a => k a
  end.

Notation "x <- m ;; k" := (bind m (fun x => k))
  (at level 61, m at next level, right associativity).

(** ** [int(s)] for a string argument *)

Section IntOfStr.

Variable db : unicode_db.

(** [Py_ISSPACE]: the ASCII white space skipped around the number. *)
Definition is_ascii_space (c : codepoint) : bool :=
  ((0x09 <=? c) && (c <=? 0x0D) || (c =? 0x20))%N.

Definition is_ascii_digit (c : codepoint) : bool :=
  ((0x30 <=? c) && (c <=? 0x39))%N.

(** [_PyUnicode_TransformDecimalAndSpaceToASCII]: ASCII is kept, other
    white space becomes a blank, other decimal digits become ASCII
    digits and anything else becomes ['?'], which no number contains. *)
Definition to_ascii (c : codepoint) : codepoint :=
  if (c <? 127)%N then c
  else if is_space c then 0x20%N
  else
    match to_decimal db c with
    | Some d => (0x30 + d)%N
    | None => 0x3F%N
    end.

Fixpoint skip_spaces (s : str) : str :=
  match s with
  | [] => []
  | c :: t => if is_ascii_space c then skip_spaces t else s
  end.

Inductive scan_state := AtStart | AfterDigit | AfterUnderscore.

(** The digit loop of [PyLong_FromString] in base 10: digits, with
    single underscores allowed between two digits only.  Returns the
    value read and the rest of the input. *)
Fixpoint scan_digits (st : scan_state) (acc : Z) (s : str) : option (Z * str) :=
  match s with
  | [] =>
    match st with
    | AfterDigit => Some (acc, [])
    | _ => None
    end
  | c :: t =>
    if is_ascii_digit c
    then scan_digits AfterDigit (10 * acc + Z.of_N (c - 0x30)) t
    else if (c =? 0x5F)%N then
      match st with
      | AfterDigit => scan_digits AfterUnderscore acc t
      | _ => None
      end
    else
      match st with
      | AfterDigit => Some (acc, s)
      | _ => None
      end
  end.

Definition split_sign (s : str) : bool * str :=
  match s with
  | 0x2B%N :: t => (false, t)
  | 0x2D%N :: t => (true, t)
  | _ => (false, s)
  end.

(** [int(s)]; every failure is a [ValueError].  The interpreter's limit on
    the number of digits ([sys.set_int_max_str_digits]) is taken as
    switched off. *)
Definition int_of_str (s : str) : exn + Z :=
  let '(negative, body) := split_sign (skip_spaces (map to_ascii s)) in
  match scan_digits AtStart 0 body with
  | None => inl ValueError
  | Some (v, rest) =>
    match skip_spaces rest with
    | [] => inr (if negative then (- v)%Z else v)
    | _ :: _ => inl ValueError
    end
  end.

End IntOfStr.

(** ** Python [float] *)

Definition float := spec_float.
Definition prec : Z := 53.
Definition emax : Z := 1024.

(** An integer as an exact, unrounded operand of a division. *)
Definition exact_of_int (z : Z) : float :=
  match z with
  | Z0 => S754_zero false
  | Zpos p => S754_finite false p 0
  | Zneg p => S754_finite true p 0
  end.

(** [a / b] on [int]: the correctly rounded quotient. *)
Definition int_truediv (a b : Z) : exn + float :=
  if (b =? 0)%Z then inl ZeroDivisionError
  else
    match SFdiv prec emax (exact_of_int a) (exact_of_int b) with
    | S754_infinity _ => inl OverflowError
    | q => inr q
    end.

(** Nearest integer to [n / d] for [0 < d], ties to even. *)
Definition div_half_even (n d : Z) : Z :=
  let q := (n / d)%Z in
  match (2 * (n mod d) ?= d)%Z with
  | Lt => q
  | Gt => (q + 1)%Z
  | Eq => if Z.even q then q else (q + 1)%Z
  end.

(** Nearest integer to [10 * m * 2^e], ties to even. *)
Definition tenths (m : positive) (e : Z) : Z :=
  if (0 <=? e)%Z then (10 * Zpos m * 2 ^ e)%Z
  else div_half_even (10 * Zpos m) (2 ^ (- e)).

(** [round(x, 1)] on [float]: the value is rounded to one decimal place
    (ties to even) as a decimal numeral, which is then read back as the
    nearest [float].  Zeros, infinities and NaN round to themselves. *)
Definition round1 (x : float) : exn + float :=
  match x with
  | S754_finite s m e =>
    match tenths m e with
    | Zpos k =>
      match SFdiv prec emax (S754_finite s k 0) (S754_finite false 10 0) with
      | S754_infinity _ => inl OverflowError
      | r => inr r
      end
    | _ => inr (S754_zero s)
    end
  | _ => inr x
  end.

(** [x < y] on [float] *)
Definition float_lt (x y : float) : bool := SFltb x y.

(** ** Stable sorting by a [float] key

    [sorted(l, key=k)] compares keys with [<] only and is stable.  On
    keys that [<] orders totally (no NaN) its result is determined by
    these two facts; the model inserts the elements one after the other,
    each before the first element whose key is greater. *)

Section Sorted.

Variable A : Type.
Variable key : A -> float.

Fixpoint insort (x : A) (l : list A) : list A :=
  match l with
  | [] => [x]
  | y :: t => if float_lt (key x) (key y) then x :: l else y :: insort x t
  end.

Definition sorted (l : list A) : list A :=
  fold_left (fun acc x => insort x acc) l [].

End Sorted.

(** ** The program *)

(** One element of [self.data]: the five-element list
    [[product_name, product_price, product_weight, file_name, price_per_kg]]. *)
Record data_row := {
  product_name : str;
  product_price : Z;
  product_weight : Z;
  file_name : str;
  price_per_kg : float
}.

(** What [load_prices] reads of the file system:
    [os.path.exists], [os.listdir] and, for [read_rows], the rows that
    [csv.reader] yields for the file opened at lines 41-42. *)
Record filesystem := {
  path_exists : str -> bool;
  listdir : str -> exn + list str;
  read_rows : str -> exn + list (list str)
}.

(** A value that a method returns to its caller. *)
Inductive value :=
| VInt (n : Z)
| VList (rows : list data_row).

(** [next((i for i, h in enumerate(headers) if p(h)), None)],
    with the enumeration starting at [i]. *)
Fixpoint next_index (p : str -> bool) (i : nat) (headers : list str) : option nat :=
  match headers with
  | [] => None
  | h :: t => if p h then Some i else next_index p (S i) t
  end.

Definition name_synonyms : list str :=
  [u "название"; u "продукт"; u "товар"; u "наименование"].
Definition price_synonyms : list str := [u "цена"; u "розница"].
Definition weight_synonyms : list str := [u "фасовка"; u "масса"; u "вес"].

Definition _search_product_price_weight (headers : list str)
  : option nat * option nat * option nat :=
  let name_col := next_index (fun h => str_in_list h name_synonyms) 0 headers in
  let price_col := next_index (fun h => str_in_list h price_synonyms) 0 headers in
  let weight_col := next_index (fun h => str_in_list h weight_synonyms) 0 headers in
  (name_col, price_col, weight_col).

(** [row[i]] where [i] is [None] or a non-negative index. *)
Definition getitem (row : list str) (i : option nat) : exn + str :=
  match i with
  | None => inl TypeError
  | Some n =>
    match nth_error row n with
    | Some cell => inr cell
    | None => inl IndexError
    end
  end.

(** ['price' in file and file.endswith('.csv')] *)
Definition is_price_file (file : str) : bool :=
  str_contains file (u "price") && endswith file (u ".csv").

Section PriceMachine.

Variable db : unicode_db.
Variable fs : filesystem.

(** The body of the loop over the data rows, lines 54-60. *)
Definition process_row (indices : option nat * option nat * option nat)
           (file : str) (row : list str) : exn + data_row :=
  let '(name_index, price_index, weight_index) := indices in
  name_cell <- getitem row name_index ;;
  let product_name := strip (lower db name_cell) in
  price_cell <- getitem row price_index ;;
  product_price <- int_of_str db price_cell ;;
  weight_cell <- getitem row weight_index ;;
  product_weight <- int_of_str db weight_cell ;;
  let file_name := file in
  quotient <- int_truediv product_price product_weight ;;
  price_per_kg <- round1 quotient ;;
  inr {| product_name := product_name;
         product_price := product_price;
         product_weight := product_weight;
         file_name := file_name;
         price_per_kg := price_per_kg |}.

(** The loop of lines 53-60, started with [filtered_data]. *)
Fixpoint process_rows (indices : option nat * option nat * option nat)
         (file : str) (rows : list (list str)) (filtered_data : list data_row)
  : exn + list data_row :=
  match rows with
  | [] => inr filtered_data
  | row :: rest =>
    item <- process_row indices file row ;;
    process_rows indices file rest (filtered_data ++ [item])
  end.

(** The body of [try], lines 41-61; the result is the new [self.data].
    [open] receives the bare entry name [file]. *)
Definition try_file (file : str) (data : list data_row) : exn + list data_row :=
  csvreader <- read_rows fs file ;;
  match csvreader with
  | [] => inr data
  | headers :: rows =>
    filtered_data <-
      process_rows (_search_product_price_weight headers) file rows [] ;;
    inr (data ++ filtered_data)
  end.

(** One iteration of the loop over the files, lines 40-65:
    [except Exception] drops the error and goes on. *)
Definition load_file (data : list data_row) (file : str) : list data_row :=
  match try_file file data with
  | inr data' => data'
  | inl _ => data
  end.

(** [load_prices]: the result and the final [self.data]. *)
Definition load_prices (file_path : str) (data : list data_row)
  : (exn + value) * list data_row :=
  if negb (path_exists fs file_path) then (inl FileNotFoundError, data)
  else
    match listdir fs file_path with
    | inl e => (inl e, data)
    | inr entries =>
      let price_files := filter is_price_file entries in
      match price_files with
      | [] => (inl ValueError, data)
      | _ :: _ =>
        let data' := fold_left load_file price_files data in
        (inr (VList data'), data')
      end
    end.

End PriceMachine.

(** [find_text] *)
Definition find_text (data : list data_row) (text : str) : list data_row :=
  sorted price_per_kg
    (filter (fun data_row => str_contains (product_name data_row) text) data).

(** The states of [self.data]: empty after [__init__], then changed by
    calls of [load_prices] only. *)
Inductive reachable (db : unicode_db) : list data_row -> Prop :=
| reachable_init : reachable db []
| reachable_load fs file_path data result data' :
    reachable db data ->
    load_prices db fs file_path data = (result, data') ->
    reachable db data'.

(** ** A character database for the Basic Latin and Cyrillic blocks

    The tables below agree with the Unicode database on U+0000-U+007F
    and U+0400-U+045F, and on the Greek sigmas; the examples stay within
    these characters. *)

Definition in_range (lo hi c : codepoint) : bool := ((lo <=? c) && (c <=? hi))%N.

Local Open Scope N_scope.

Definition basic_to_lower (c : codepoint) : list codepoint :=
  if in_range 0x41 0x5A c then [c + 32]
  else if in_range 0x400 0x40F c then [c + 80]
  else if in_range 0x410 0x42F c then [c + 32]
  else if c =? capital_sigma then [small_sigma]
  else [c].

Definition basic_db : unicode_db := {|
  to_lower_full := basic_to_lower;
  is_cased := fun c =>
    in_range 0x41 0x5A c || in_range 0x61 0x7A c || in_range 0x400 0x45F c
    || in_range capital_sigma capital_sigma c
    || in_range small_final_sigma small_sigma c;
  is_case_ignorable := fun c =>
    (c =? 0x27) || (c =? 0x2E) || (c =? 0x3A) || (c =? 0x5E) || (c =? 0x60);
  to_decimal := fun _ => None
|}.

Local Close Scope N_scope.

(** ** Export *)

(** The digits of a decimal numeral as characters. *)
Fixpoint uint_chars (d : Decimal.uint) : str :=
  match d with
  | Decimal.Nil => []
  | Decimal.D0 d' => 0x30%N :: uint_chars d'
  | Decimal.D1 d' => 0x31%N :: uint_chars d'
  | Decimal.D2 d' => 0x32%N :: uint_chars d'
  | Decimal.D3 d' => 0x33%N :: uint_chars d'
  | Decimal.D4 d' => 0x34%N :: uint_chars d'
  | Decimal.D5 d' => 0x35%N :: uint_chars d'
  | Decimal.D6 d' => 0x36%N :: uint_chars d'
  | Decimal.D7 d' => 0x37%N :: uint_chars d'
  | Decimal.D8 d' => 0x38%N :: uint_chars d'
  | Decimal.D9 d' => 0x39%N :: uint_chars d'
  end.

(** [str(z)] for an [int], as an f-string formats it: the decimal
    numeral without leading zeros, after a minus sign when negative. *)
Definition str_of_int (z : Z) : str :=
  match Z.to_int z with
  | Decimal.Pos d => uint_chars d
  | Decimal.Neg d => 0x2D%N :: uint_chars d
  end.

Definition nl : str := [0x0A%N].

Definition tabs (n : nat) : str := repeat 0x09%N n.

(** One line of a template: its indentation, its text, a line feed. *)
Definition line (indent : nat) (text : string) : str :=
  tabs indent ++ u text ++ nl.

(** The literal of lines 95-119. *)
Definition html_head : str :=
  nl
  ++ line 3 "<!DOCTYPE html>"
  ++ line 3 "<html>"
  ++ line 3 "<head>"
  ++ line 4 "<title>Позиции продуктов</title>"
  ++ line 4 "<style>"
  ++ line 5 "table { border-collapse: collapse; width: 100%; }"
  ++ line 5 "th, td { border: 1px solid black; padding: 8px; text-align: left; }"
  ++ line 5 "th { background-color: #f2f2f2; }"
  ++ line 4 "</style>"
  ++ line 3 "</head>"
  ++ line 3 "<body>"
  ++ line 4 "<table>"
  ++ line 4 "<thead>"
  ++ line 4 "<tr>"
  ++ line 5 "<th>Номер</th>"
  ++ line 5 "<th>Название</th>"
  ++ line 5 "<th>Цена</th>"
  ++ line 5 "<th>Фасовка</th>"
  ++ line 5 "<th>Файл</th>"
  ++ line 5 "<th>Цена за кг.</th>"
  ++ line 4 "</tr>"
  ++ line 4 "</thead>"
  ++ line 4 "<tbody>"
  ++ tabs 2.

(** The literal of lines 133-138. *)
Definition html_tail : str :=
  nl
  ++ line 4 "</tbody>"
  ++ line 4 "</table>"
  ++ line 3 "</body>"
  ++ line 2 "</html>"
  ++ tabs 2.

(** One cell of a row: [f'<td>{content}</td>\n']. *)
Definition td (content : str) : str := u "<td>" ++ content ++ u "</td>" ++ nl.

Section HtmlExport.

(** [str(x)] for a [float], as an f-string formats it: the shortest
    numeral that reads back as [x].  It is computed by the interpreter
    and is left open here. *)
Variable float_str : float -> str.

(** The text that one iteration of the loop adds, lines 122-131;
    [number] is the index that [enumerate] gives, from 0. *)
Definition html_row (number : nat) (item : data_row) : str :=
  u "<tr>" ++ nl
  ++ td (str_of_int (Z.of_nat number + 1))
  ++ td (product_name item)
  ++ td (str_of_int (product_price item))
  ++ td (str_of_int (product_weight item))
  ++ td (file_name item)
  ++ td (float_str (price_per_kg item))
  ++ u "</tr>" ++ nl.

(** The loop of lines 120-131 from index [number] on, [result] being
    the text built so far. *)
Fixpoint export_rows (number : nat) (data : list data_row) (result : str) : str :=
  match data with
  | [] => result
  | item :: rest => export_rows (S number) rest (result ++ html_row number item)
  end.

(** The text that [export_to_html] writes, lines 95-138. *)
Definition html_document (data : list data_row) : str :=
  export_rows 0 data html_head ++ html_tail.

(** [export_to_html]; [write fname text] stands for lines 140-141 and
    tells whether opening or writing the file raises. *)
Definition export_to_html (write : str -> str -> option exn)
           (data : list data_row) (fname : str) : exn + str :=
  let result := html_document data in
  match write fname result with
  | Some e => inl e
  | None => inr (u "Данные сохранены в файле " ++ fname)
  end.

End HtmlExport.

(** ** The console session

    [display_search_results] and [main] act on the console and on a
    [PrettyTable]; they are modelled by the events they cause, in order.
    The calls of [print] and of the methods of the table are taken not
    to raise, and an interrupt from the keyboard is taken to arrive
    while [input] waits. *)

(** What [main] may catch: an exception of the program, or the
    [EOFError] of [input] at the end of the input. *)
Inductive raised :=
| Exn (e : exn)
| EOFError.

Inductive event :=
(** [print(text)] *)
| Print (text : str)
(** [print(f"{before}{e}{after}")] for a caught exception [e] *)
| PrintError (before : str) (e : raised) (after : str)
(** [input(text)] is called *)
| Prompt (text : str)
(** [table.field_names = names] on a new table *)
| TableFieldNames (names : list str)
(** [table.clear_rows()] *)
| TableClearRows
(** [table.add_row([index, *product])] *)
| TableAddRow (index : Z) (product : data_row)
(** [print(table)] *)
| TablePrint.

(** What the keyboard sends for one call of [input]: a line, without its
    line end, or an interrupt. *)
Inductive keyboard :=
| Line (text : str)
| CtrlC.

Definition quote : str := [0x22%N].

(** The loop of lines 174-175, [index] being the number of the next row. *)
Fixpoint add_rows (index : Z) (filtered_data : list data_row) : list event :=
  match filtered_data with
  | [] => []
  | product :: rest => TableAddRow index product :: add_rows (index + 1) rest
  end.

(** [display_search_results] *)
Definition display_search_results (filtered_data : list data_row)
           (search_query : str) : list event :=
  TableClearRows ::
  match filtered_data with
  | [] =>
    [Print (u "К сожалению по вашему запросу ничего не найдено, повторите попытку."
            ++ nl)]
  | _ :: _ =>
    add_rows 1 filtered_data
    ++ [Print (nl ++ u "Результат поиска по запросу " ++ quote ++ search_query
               ++ quote ++ u ":");
        TablePrint;
        Print (u "Найдено позиций: "
               ++ str_of_int (Z.of_nat (List.length filtered_data)) ++ nl)]
  end.

Definition prompt : str :=
  u "Введите свой запрос (или " ++ quote ++ u "exit" ++ quote
  ++ u " для выхода): ".

Definition field_names : list str :=
  [u "№"; u "Наименование"; u "цена"; u "вес"; u "файл"; u "цена за кг"].

Section Console.

Variable db : unicode_db.
Variable float_str : float -> str.

(** The loop of lines 197-214 on the input [stdin]; past the end of
    [stdin] every call of [input] raises [EOFError].  The loop need not
    end: [None] tells that [fuel] iterations did not reach its end. *)
Fixpoint main_loop (fuel : nat) (stdin : list keyboard) (data : list data_row)
  : option (list event) :=
  match fuel with
  | O => None
  | S fuel' =>
    match stdin with
    | [] =>
      option_map
        (fun later =>
           Prompt prompt :: PrintError (u "Произошла ошибка: ") EOFError nl
           :: later)
        (main_loop fuel' [] data)
    | CtrlC :: _ =>
      Some [Prompt prompt; Print (nl ++ u "Программа завершена пользователем")]
    | Line text :: stdin' =>
      let search_input := lower db (strip text) in
      if str_eqb search_input (u "exit") then Some [Prompt prompt]
      else
        match search_input with
        | [] =>
          option_map
            (fun later =>
               Prompt prompt :: Print (u "Запрос не может быть пустым" ++ nl)
               :: later)
            (main_loop fuel' stdin' data)
        | _ :: _ =>
          let filtered_search_data := find_text data search_input in
          option_map
            (fun later =>
               Prompt prompt
               :: display_search_results filtered_search_data search_input
               ++ later)
            (main_loop fuel' stdin' data)
        end
    end
  end.

(** [main]: the events of a run that ends within [fuel] iterations of
    the loop, [None] for a run that does not. *)
Definition main (fuel : nat) (fs : filesystem) (write : str -> str -> option exn)
           (stdin : list keyboard) : option (list event) :=
  match load_prices db fs (u "./") [] with
  | (inl e, _) =>
    Some [TableFieldNames field_names;
          PrintError (u "Ошибка при загрузке данных: ") (Exn e) []]
  | (inr _, data) =>
    match main_loop fuel stdin data with
    | None => None
    | Some session =>
      Some
        ([TableFieldNames field_names;
          Print (u "Добро пожаловать в Анализатор прайс-листов!");
          Print (u "-------------------------------------------" ++ nl)]
         ++ session
         ++ [Print (u "Программа завершена")]
         ++ match export_to_html float_str write data (u "output.html") with
            | inl e => [PrintError (u "Ошибка при экспорте в HTML: ") (Exn e) []]
            | inr _ => []
            end)
    end
  end.

End Console.

(** * Vocabulary of the statements *)

(** [r] is the position of the leftmost header that is one of
    [synonyms], or [None] when no header is. *)
Definition leftmost_match (synonyms headers : list str) (r : option nat) : Prop :=
  match r with
  | Some i =>
    (exists h, nth_error headers i = Some h /\ In h synonyms) /\
    (forall j h, j < i -> nth_error headers j = Some h -> ~ In h synonyms)
  | None => forall h, In h headers -> ~ In h synonyms
  end.

(** [s] neither starts nor ends with a white-space character. *)
Definition no_outer_space (s : str) : Prop :=
  (forall c t, s = c :: t -> is_space c = false) /\
  (forall c t, s = t ++ [c] -> is_space c = false).

(** [d] is its own lower-case form. *)
Definition lower_char (db : unicode_db) (d : codepoint) : Prop :=
  d <> capital_sigma /\ to_lower_full db d = [d].

(** The lower-case mapping of the database is closed: what it yields is
    lower case already.  The Unicode database has this property. *)
Definition lowercase_closed (db : unicode_db) : Prop :=
  (forall c d, In d (to_lower_full db c) -> lower_char db d) /\
  lower_char db small_final_sigma /\
  lower_char db small_sigma.

(** A record as normalization leaves it. *)
Definition normalized (db : unicode_db) (item : data_row) : Prop :=
  (quotient <- int_truediv (product_price item) (product_weight item) ;;
   round1 quotient) = inr (price_per_kg item) /\
  no_outer_space (product_name item) /\
  lower db (product_name item) = product_name item.

(** [x] is a number. *)
Definition not_nan (x : float) : Prop := x <> S754_nan.

(** [x <= y] on [float] *)
Definition float_le (x y : float) : Prop := SFleb x y = true.

(** A position on a line of integer triples, ordered lexicographically,
    that [SFcompare] follows on the values that are not NaN. *)
Definition rank (x : float) : Z * Z * Z :=
  match x with
  | S754_infinity true => (-2, 0, 0)%Z
  | S754_finite true m e => (-1, - e, Zneg m)%Z
  | S754_zero _ => (0, 0, 0)%Z
  | S754_finite false m e => (1, e, Zpos m)%Z
  | S754_infinity false => (2, 0, 0)%Z
  | S754_nan => (3, 0, 0)%Z
  end.

(** Lexicographic comparison of integer triples. *)
Definition lex_compare (a b : Z * Z * Z) : comparison :=
  let '(a1, a2, a3) := a in
  let '(b1, b2, b3) := b in
  match (a1 ?= b1)%Z with
  | Eq => match (a2 ?= b2)%Z with
          | Eq => (a3 ?= b3)%Z
          | c => c
          end
  | c => c
  end.

Definition lex_lt (a b : Z * Z * Z) : Prop :=
  let '(a1, a2, a3) := a in
  let '(b1, b2, b3) := b in
  (a1 < b1 \/ (a1 = b1 /\ (a2 < b2 \/ (a2 = b2 /\ a3 < b3))))%Z.

(** [x] is a finite number whose sign bit is [s]. *)
Definition finite_with_sign (s : bool) (x : float) : Prop :=
  match x with
  | S754_zero s' | S754_finite s' _ _ => s' = s
  | _ => False
  end.

(** The rows of the table for [data], the first of them being the row
    of index [number]. *)
Fixpoint table_rows (float_str : float -> str) (number : nat)
         (data : list data_row) : str :=
  match data with
  | [] => []
  | item :: rest =>
    html_row float_str number item ++ table_rows float_str (S number) rest
  end.

(** The events of one iteration of the loop of [main] for a line that
    does not end the session. *)
Definition respond (db : unicode_db) (data : list data_row) (text : str)
  : list event :=
  Prompt prompt ::
  match lower db (strip text) with
  | [] => [Print (u "Запрос не может быть пустым" ++ nl)]
  | c :: q =>
    display_search_results (find_text data (c :: q)) (c :: q)
  end.

(** The line, stripped and lowered, is the word that ends the session. *)
Definition says_exit (db : unicode_db) (text : str) : Prop :=
  lower db (strip text) = u "exit".

(** [s] consists of white-space characters only. *)
Definition blank (s : str) : Prop := Forall (fun c => is_space c = true) s.

(** White space and case do not meet in the database: a white-space
    character is its own lower-case form and is neither cased nor
    case-ignorable, and the lower-case form of any other character is
    not empty and holds no white space.  The Unicode database has this
    property. *)
Definition spaces_apart (db : unicode_db) : Prop :=
  (forall c, is_space c = true ->
             to_lower_full db c = [c] /\
             is_cased db c = false /\
             is_case_ignorable db c = false) /\
  (forall c, is_space c = false ->
             to_lower_full db c <> [] /\
             Forall (fun d => is_space d = false) (to_lower_full db c)).

(** * Example data *)

(** [open(name)] in a directory given by its files: the rows of the
    file, or [FileNotFoundError]. *)
Fixpoint lookup_file (files : list (str * list (list str))) (name : str)
  : exn + list (list str) :=
  match files with
  | [] => inl FileNotFoundError
  | (n, rows) :: rest => if str_eqb n name then inr rows else lookup_file rest name
  end.

(** The directory [dir], which is also the working directory, holding
    the given CSV files and nothing else. *)
Definition directory (dir : str) (files : list (str * list (list str)))
  : filesystem := {|
  path_exists := fun p => str_eqb p dir;
  listdir := fun p =>
    if str_eqb p dir then inr (map fst files) else inl FileNotFoundError;
  read_rows := lookup_file files
|}.

(** The default argument of [load_prices]. *)
Definition cwd : str := u "./".

Definition headers_ru : list str := [u "товар"; u "цена"; u "вес"].

(** The file of the first scenario: one header row, one data row. *)
Definition apples_csv : str * list (list str) :=
  (u "price1.csv", [headers_ru; [u "Яблоко"; u "100"; u "2"]]).

(** The record that [apples_csv] yields; its [price_per_kg] is 50.0. *)
Definition apple : data_row := {|
  product_name := u "яблоко";
  product_price := 100;
  product_weight := 2;
  file_name := u "price1.csv";
  price_per_kg := S754_finite false 7036874417766400 (-47)
|}.

(** A file whose second data row has a price that is no integer. *)
Definition broken_csv : str * list (list str) :=
  (u "price_broken.csv",
   [headers_ru;
    [u "Слива"; u "30"; u "4"];
    [u "Груша"; u "abc"; u "1"];
    [u "Вишня"; u "90"; u "3"]]).

(** A file with a negative price and a negative weight. *)
Definition refunds_csv : str * list (list str) :=
  (u "price_refunds.csv",
   [headers_ru; [u "Возврат"; u "-5"; u "2"]; [u "Скидка"; u "10"; u "-4"]]).

(** A file whose header row names no weight column. *)
Definition no_weight_csv : str * list (list str) :=
  (u "price_no_weight.csv",
   [[u "товар"; u "цена"]; [u "Мёд"; u "500"]]).

(** Entries that fail one of the two tests of [is_price_file]. *)
Definition other_files : list (str * list (list str)) :=
  [(u "Price.csv", [headers_ru]);
   (u "price.csv.bak", [headers_ru]);
   (u "goods.csv", [headers_ru])].

(** A file with three records of equal [price_per_kg] (50.0) and one
    cheaper record between them. *)
Definition fruits_csv : str * list (list str) :=
  (u "price_fruits.csv",
   [[u "наименование"; u "розница"; u "масса"];
    [u "Яблоко красное"; u "100"; u "2"];
    [u "Груша"; u "30"; u "4"];
    [u "Яблоко зелёное"; u "150"; u "3"];
    [u "Яблочный сок"; u "50"; u "1"]]).

(** [self.data] after [fruits_csv] is loaded. *)
Definition fruits : list data_row :=
  snd (load_prices basic_db (directory cwd [fruits_csv]) cwd []).

(** A file whose second data row has a zero weight. *)
Definition salt_csv : str * list (list str) :=
  (u "price_salt.csv",
   [headers_ru; [u "Сахар"; u "80"; u "1"]; [u "Соль"; u "10"; u "0"]]).

(** * Properties *)

(** ** Strings *)

Lemma str_eqb_eq (a b : str) : str_eqb a b = true <-> a = b.
Proof.
  unfold str_eqb. destruct (list_eq_dec N.eq_dec a b); split; congruence.
Qed.

Lemma str_in_list_In (h : str) (l : list str) :
  str_in_list h l = true <-> In h l.
Proof.
  unfold str_in_list. rewrite existsb_exists. split.
  - intros [x [Hx Heq]]. apply str_eqb_eq in Heq. now subst.
  - intros Hin. exists h. split; [assumption | now apply str_eqb_eq].
Qed.

Lemma startswith_prefix (s p : str) :
  startswith s p = true <-> exists t, s = p ++ t.
Proof.
  revert s. induction p as [| a p IH]; intros s.
  - split; [intros _; now exists s | intros _; now destruct s].
  - destruct s as [| b s]; cbn [startswith].
    + split; [discriminate | intros [t Ht]; discriminate].
    + destruct (N.eqb_spec a b) as [-> | Hab]; cbn [andb].
      * rewrite IH. split.
        -- intros [t ->]. now exists t.
        -- intros [t Ht]. injection Ht as ->. now exists t.
      * split; [discriminate |].
        intros [t Ht]. injection Ht as -> _. now elim Hab.
Qed.

Lemma endswith_suffix (s p : str) :
  endswith s p = true <-> exists t, s = t ++ p.
Proof.
  unfold endswith. rewrite startswith_prefix. split.
  - intros [t Ht]. exists (rev t).
    rewrite <- (rev_involutive s), Ht, rev_app_distr, rev_involutive.
    reflexivity.
  - intros [t ->]. exists (rev t). apply rev_app_distr.
Qed.

Lemma str_contains_substring (s sub : str) :
  str_contains s sub = true <-> exists pre post, s = pre ++ sub ++ post.
Proof.
  induction s as [| c s IH].
  - cbn [str_contains]. rewrite orb_false_r, startswith_prefix. split.
    + intros [t Ht]. now exists [], t.
    + intros [pre [post H]]. symmetry in H.
      apply app_eq_nil in H as [-> H]. now exists post.
  - cbn [str_contains]. rewrite orb_true_iff, startswith_prefix, IH. split.
    + intros [[t Ht] | [pre [post Ht]]].
      * now exists [], t.
      * exists (c :: pre), post. simpl. now rewrite Ht.
    + intros [[| c' pre] [post H]].
      * left. now exists post.
      * right. injection H as _ H. now exists pre, post.
Qed.

Lemma str_contains_empty (s : str) : str_contains s [] = true.
Proof. destruct s; reflexivity. Qed.

(** ** Header resolution *)

Lemma next_index_spec (p : str -> bool) (headers : list str) (i : nat) :
  match next_index p i headers with
  | Some k =>
    exists n, k = i + n /\
      (exists h, nth_error headers n = Some h /\ p h = true) /\
      (forall j h, j < n -> nth_error headers j = Some h -> p h = false)
  | None => forall h, In h headers -> p h = false
  end.
Proof.
  revert i. induction headers as [| h t IH]; intros i; simpl.
  - intros h [].
  - destruct (p h) eqn:Hp.
    + exists 0. repeat split.
      * lia.
      * now exists h.
      * intros j h' Hj. lia.
    + specialize (IH (S i)). destruct (next_index p (S i) t) as [k |].
      * destruct IH as [n [-> [Hn Hbefore]]]. exists (S n). repeat split.
        -- lia.
        -- exact Hn.
        -- intros [| j] h' Hj Hnth; simpl in Hnth.
           ++ now injection Hnth as <-.
           ++ apply (Hbefore j); [lia | assumption].
      * intros h' [<- | Hin]; [assumption | now apply IH].
Qed.

Lemma next_index_leftmost (synonyms headers : list str) :
  leftmost_match synonyms headers
    (next_index (fun h => str_in_list h synonyms) 0 headers).
Proof.
  pose proof (next_index_spec (fun h => str_in_list h synonyms) headers 0) as H.
  destruct (next_index _ 0 headers) as [k |]; simpl.
  - destruct H as [n [-> [[h [Hn Hp]] Hbefore]]]. simpl. split.
    + exists h. split; [assumption | now apply str_in_list_In].
    + intros j h' Hj Hnth Hin. apply str_in_list_In in Hin.
      rewrite (Hbefore j h' Hj Hnth) in Hin. discriminate.
  - intros h Hin Hsyn. apply str_in_list_In in Hsyn.
    rewrite (H h Hin) in Hsyn. discriminate.
Qed.

(** C3.  For every header row, [_search_product_price_weight] returns
    for each of the three fields (name, price, weight) the index of the
    leftmost header that is equal, code point for code point, to one of
    the field's synonyms, and [None] when no header is; it is a total
    function, so no header row makes it fail, and a later duplicate is
    never the index returned. *)
Theorem search_product_price_weight_leftmost (headers : list str) :
  exists name_col price_col weight_col,
    _search_product_price_weight headers = (name_col, price_col, weight_col) /\
    leftmost_match name_synonyms headers name_col /\
    leftmost_match price_synonyms headers price_col /\
    leftmost_match weight_synonyms headers weight_col.
Proof.
  unfold _search_product_price_weight.
  eexists _, _, _. split; [reflexivity |].
  repeat split; apply next_index_leftmost.
Qed.

Example search_duplicate_headers :
  _search_product_price_weight
    [u "id"; u "товар"; u "Цена"; u "розница"; u "цена"; u "название"]
  = (Some 1, Some 3, None).
Proof. reflexivity. Qed.

(** ** Ingestion *)

Section Ingestion.

Variable db : unicode_db.
Variable fs : filesystem.

Lemma process_rows_app indices file rows acc :
  process_rows db indices file rows acc =
  (items <- process_rows db indices file rows [] ;; inr (acc ++ items)).
Proof.
  revert acc. induction rows as [| row rest IH]; intros acc; simpl.
  - now rewrite app_nil_r.
  - destruct (process_row db indices file row) as [e | item]; simpl.
    + reflexivity.
    + rewrite (IH (acc ++ [item])), (IH [item]).
      destruct (process_rows db indices file rest []) as [e | items]; simpl.
      * reflexivity.
      * now rewrite <- app_assoc.
Qed.

(** The loop over the rows stops at the first row that raises. *)
Lemma process_rows_raises indices file rows acc row e :
  In row rows ->
  process_row db indices file row = inl e ->
  exists e', process_rows db indices file rows acc = inl e'.
Proof.
  revert acc. induction rows as [| r rest IH]; intros acc Hin Hrow.
  - destruct Hin.
  - simpl. destruct (process_row db indices file r) as [e0 | item] eqn:Hr; simpl.
    + now exists e0.
    + destruct Hin as [-> | Hin]; [congruence |].
      now apply IH.
Qed.

(** The loop over the rows returns the images of all the rows when
    none raises. *)
Lemma process_rows_returns indices file rows items :
  process_rows db indices file rows [] = inr items <->
  Forall2 (fun row item => process_row db indices file row = inr item) rows items.
Proof.
  revert items. induction rows as [| r rest IH]; intros items; simpl.
  - split.
    + intros H. injection H as <-. constructor.
    + intros H. inversion H. reflexivity.
  - destruct (process_row db indices file r) as [e | item] eqn:Hr; simpl.
    + split; [discriminate |]. intros H. inversion H; subst. congruence.
    + rewrite process_rows_app.
      destruct (process_rows db indices file rest []) as [e | items'] eqn:Hrest;
        simpl.
      * split; [discriminate |]. intros H. inversion H; subst.
        match goal with
        | H : Forall2 _ rest _ |- _ => apply IH in H; discriminate
        end.
      * split.
        -- intros H. injection H as <-. constructor; [assumption |].
           now apply IH.
        -- intros H. inversion H; subst.
           match goal with
           | H : Forall2 _ rest _ |- _ => apply IH in H
           end.
           congruence.
Qed.

(** Whether the body of [try] raises does not depend on [self.data]. *)
Lemma try_file_raises_any_data file data data' e :
  try_file db fs file data = inl e -> try_file db fs file data' = inl e.
Proof.
  unfold try_file. destruct (read_rows fs file) as [e0 | [| headers rows]]; simpl.
  - trivial.
  - discriminate.
  - destruct (process_rows db _ file rows []); simpl; [trivial | discriminate].
Qed.

Lemma load_file_raises file data e :
  try_file db fs file data = inl e -> load_file db fs data file = data.
Proof. unfold load_file. now intros ->. Qed.

(** [self.data] only grows. *)
Lemma load_file_extends file data :
  exists added, load_file db fs data file = data ++ added.
Proof.
  unfold load_file, try_file.
  destruct (read_rows fs file) as [e | [| headers rows]]; simpl.
  - exists []. now rewrite app_nil_r.
  - exists []. now rewrite app_nil_r.
  - destruct (process_rows db _ file rows []) as [e | items]; simpl.
    + exists []. now rewrite app_nil_r.
    + now exists items.
Qed.

Lemma load_files_extends files data :
  exists added, fold_left (load_file db fs) files data = data ++ added.
Proof.
  revert data. induction files as [| file rest IH]; intros data; simpl.
  - exists []. now rewrite app_nil_r.
  - destruct (load_file_extends file data) as [a1 ->].
    destruct (IH (data ++ a1)) as [a2 ->].
    exists (a1 ++ a2). now rewrite app_assoc.
Qed.

(** A file whose processing raises leaves the run as if it were absent. *)
Lemma load_files_skip pre file post data e :
  try_file db fs file (fold_left (load_file db fs) pre data) = inl e ->
  fold_left (load_file db fs) (pre ++ file :: post) data =
  fold_left (load_file db fs) (pre ++ post) data.
Proof.
  intros H. rewrite !fold_left_app. simpl.
  now rewrite (load_file_raises _ _ H).
Qed.

Lemma try_file_row_raises file data headers rows row e :
  read_rows fs file = inr (headers :: rows) ->
  In row rows ->
  process_row db (_search_product_price_weight headers) file row = inl e ->
  exists e', try_file db fs file data = inl e'.
Proof.
  intros Hread Hin Hrow. unfold try_file. rewrite Hread. simpl.
  destruct (process_rows_raises _ _ _ [] _ Hin Hrow) as [e' ->].
  now exists e'.
Qed.

(** An invariant of the items that [process_row] builds is an
    invariant of [self.data]. *)
Section Invariant.

Variable P : data_row -> Prop.
Hypothesis process_row_P :
  forall indices file row item,
    process_row db indices file row = inr item -> P item.

Lemma process_rows_Forall indices file rows items :
  process_rows db indices file rows [] = inr items -> Forall P items.
Proof.
  rewrite process_rows_returns. induction 1; constructor; eauto.
Qed.

Lemma load_file_Forall file data :
  Forall P data -> Forall P (load_file db fs data file).
Proof.
  intros Hdata. unfold load_file, try_file.
  destruct (read_rows fs file) as [e | [| headers rows]]; simpl; trivial.
  destruct (process_rows db _ file rows []) as [e | items] eqn:Hrows;
    simpl; trivial.
  apply Forall_app. split; [assumption |].
  now apply process_rows_Forall in Hrows.
Qed.

Lemma load_files_Forall files data :
  Forall P data -> Forall P (fold_left (load_file db fs) files data).
Proof.
  revert data. induction files as [| file rest IH]; intros data Hdata; simpl.
  - assumption.
  - apply IH. now apply load_file_Forall.
Qed.

Lemma load_prices_Forall file_path data result data' :
  load_prices db fs file_path data = (result, data') ->
  Forall P data -> Forall P data'.
Proof.
  unfold load_prices. intros H Hdata.
  destruct (negb (path_exists fs file_path)).
  - injection H as _ <-. assumption.
  - destruct (listdir fs file_path) as [e | entries].
    + injection H as _ <-. assumption.
    + destruct (filter is_price_file entries) as [| file files].
      * injection H as _ <-. assumption.
      * injection H as _ <-.
        apply (load_files_Forall (file :: files)). assumption.
Qed.

End Invariant.

End Ingestion.

Lemma reachable_Forall (db : unicode_db) (P : data_row -> Prop) :
  (forall indices file row item,
      process_row db indices file row = inr item -> P item) ->
  forall data, reachable db data -> Forall P data.
Proof.
  intros HP data Hreach. induction Hreach as [| fs file_path data result data' _ IH Hload].
  - constructor.
  - eapply load_prices_Forall; eauto.
Qed.

(** What a row that [process_row] accepts looks like. *)
Lemma process_row_inr db name_index price_index weight_index file row item :
  process_row db (name_index, price_index, weight_index) file row = inr item ->
  exists name_cell price_cell weight_cell quotient,
    getitem row name_index = inr name_cell /\
    product_name item = strip (lower db name_cell) /\
    getitem row price_index = inr price_cell /\
    int_of_str db price_cell = inr (product_price item) /\
    getitem row weight_index = inr weight_cell /\
    int_of_str db weight_cell = inr (product_weight item) /\
    file_name item = file /\
    int_truediv (product_price item) (product_weight item) = inr quotient /\
    round1 quotient = inr (price_per_kg item).
Proof.
  unfold process_row.
  destruct (getitem row name_index) as [e | name_cell] eqn:Hn; simpl;
    [discriminate |].
  destruct (getitem row price_index) as [e | price_cell] eqn:Hp; simpl;
    [discriminate |].
  destruct (int_of_str db price_cell) as [e | p] eqn:Hpi; simpl; [discriminate |].
  destruct (getitem row weight_index) as [e | weight_cell] eqn:Hw; simpl;
    [discriminate |].
  destruct (int_of_str db weight_cell) as [e | w] eqn:Hwi; simpl; [discriminate |].
  destruct (int_truediv p w) as [e | q] eqn:Hq; simpl; [discriminate |].
  destruct (round1 q) as [e | r] eqn:Hr; simpl; [discriminate |].
  intros H. injection H as <-. simpl.
  exists name_cell, price_cell, weight_cell, q.
  repeat split; try assumption; reflexivity.
Qed.

(** A price or weight cell that [int] rejects makes [process_row] raise. *)
Lemma process_row_bad_integer db name_index price_index weight_index file row :
  (exists cell, getitem row price_index = inr cell /\
                int_of_str db cell = inl ValueError) \/
  (exists cell, getitem row weight_index = inr cell /\
                int_of_str db cell = inl ValueError) ->
  exists e,
    process_row db (name_index, price_index, weight_index) file row = inl e.
Proof.
  intros Hbad. unfold process_row.
  destruct (getitem row name_index) as [e | name_cell]; simpl; [now exists e |].
  destruct Hbad as [[cell [Hget Hint]] | [cell [Hget Hint]]].
  - rewrite Hget. simpl. rewrite Hint. simpl. now exists ValueError.
  - destruct (getitem row price_index) as [e | price_cell]; simpl; [now exists e |].
    destruct (int_of_str db price_cell) as [e | p]; simpl; [now exists e |].
    rewrite Hget. simpl. rewrite Hint. simpl. now exists ValueError.
Qed.

Lemma int_truediv_nonzero (a b : Z) (q : float) :
  int_truediv a b = inr q -> b <> 0%Z.
Proof.
  unfold int_truediv. destruct (Z.eqb_spec b 0); [discriminate | trivial].
Qed.

Lemma int_truediv_zero (a : Z) : int_truediv a 0 = inl ZeroDivisionError.
Proof. reflexivity. Qed.

(** A file that cannot be read raises in the body of [try]. *)
Lemma try_file_io_error db fs file data e :
  read_rows fs file = inl e -> try_file db fs file data = inl e.
Proof. intros H. unfold try_file. now rewrite H. Qed.

(** A column that the header row does not name makes every data row,
    and so the file, raise. *)
Lemma process_row_missing_column db name_index price_index weight_index file row :
  name_index = None \/ price_index = None \/ weight_index = None ->
  exists e,
    process_row db (name_index, price_index, weight_index) file row = inl e.
Proof.
  intros Hmissing. unfold process_row.
  destruct (getitem row name_index) as [e | name_cell] eqn:Hn; simpl;
    [now exists e |].
  destruct (getitem row price_index) as [e | price_cell] eqn:Hp; simpl;
    [now exists e |].
  destruct (int_of_str db price_cell) as [e | p]; simpl; [now exists e |].
  destruct (getitem row weight_index) as [e | weight_cell] eqn:Hw; simpl;
    [now exists e |].
  destruct Hmissing as [-> | [-> | ->]]; discriminate.
Qed.

Lemma try_file_missing_column db fs file data headers row rows
      name_index price_index weight_index :
  read_rows fs file = inr (headers :: row :: rows) ->
  _search_product_price_weight headers = (name_index, price_index, weight_index) ->
  name_index = None \/ price_index = None \/ weight_index = None ->
  exists e, try_file db fs file data = inl e.
Proof.
  intros Hread Hidx Hmissing.
  destruct (@process_row_missing_column db name_index price_index weight_index
              file row Hmissing) as [e He].
  rewrite <- Hidx in He.
  exact (@try_file_row_raises db fs file data headers (row :: rows) row e
           Hread (or_introl eq_refl) He).
Qed.

(** ** The first scenario *)

Example apples_loaded :
  load_prices basic_db (directory cwd [apples_csv]) cwd []
  = (inr (VList [apple]), [apple]).
Proof. vm_compute. reflexivity. Qed.

Example apple_price_per_kg_is_50 :
  price_per_kg apple = SFdiv prec emax (exact_of_int 50) (exact_of_int 1).
Proof. vm_compute. reflexivity. Qed.

Lemma reachable_apple : reachable basic_db [apple].
Proof.
  apply (@reachable_load basic_db (directory cwd [apples_csv]) cwd []
           (inr (VList [apple])) [apple] (reachable_init basic_db)).
  vm_compute. reflexivity.
Defined.

(** ** Failure of a row, failure of a file *)

(** C5.  Ingestion of one file is atomic for [self.data]: if the
    processing of any data row of the file raises, the file appends no
    record at all, the rows accepted before the failing one included,
    and [self.data] is after the file exactly what it was before. *)
Theorem load_file_atomic db fs file data headers rows row e :
  read_rows fs file = inr (headers :: rows) ->
  In row rows ->
  process_row db (_search_product_price_weight headers) file row = inl e ->
  load_file db fs data file = data.
Proof.
  intros Hread Hin Hrow.
  destruct (@try_file_row_raises db fs file data headers rows row e Hread Hin Hrow)
    as [e' He'].
  exact (@load_file_raises db fs file data e' He').
Qed.

Lemma load_file_atomic_witness :
  load_file basic_db (directory cwd [broken_csv]) [apple] (fst broken_csv)
  = [apple].
Proof.
  apply (@load_file_atomic basic_db (directory cwd [broken_csv]) (fst broken_csv)
           [apple] headers_ru (tl (snd broken_csv))
           [u "Груша"; u "abc"; u "1"] ValueError).
  - vm_compute. reflexivity.
  - vm_compute. right. left. reflexivity.
  - vm_compute. reflexivity.
Defined.

(** C4, as the code has it.  A data row whose price or weight cell is
    not a base-10 integer makes the whole file fail: no row of that file
    is appended, the rows around the bad one included, and the run goes
    on with the remaining files as if the file were absent. *)
Theorem bad_integer_row_skips_file db fs file rest data headers rows row
        name_index price_index weight_index :
  read_rows fs file = inr (headers :: rows) ->
  _search_product_price_weight headers = (name_index, price_index, weight_index) ->
  In row rows ->
  (exists cell, getitem row price_index = inr cell /\
                int_of_str db cell = inl ValueError) \/
  (exists cell, getitem row weight_index = inr cell /\
                int_of_str db cell = inl ValueError) ->
  load_file db fs data file = data /\
  fold_left (load_file db fs) (file :: rest) data =
  fold_left (load_file db fs) rest data.
Proof.
  intros Hread Hidx Hin Hbad.
  destruct (@process_row_bad_integer db name_index price_index weight_index file
              row Hbad) as [e He].
  rewrite <- Hidx in He.
  destruct (@try_file_row_raises db fs file data headers rows row e Hread Hin He)
    as [e' He'].
  pose proof (@load_file_raises db fs file data e' He') as Hsame.
  split; [assumption |]. simpl. now rewrite Hsame.
Qed.

Lemma bad_integer_row_skips_file_witness :
  load_file basic_db (directory cwd [broken_csv; apples_csv]) [] (fst broken_csv)
  = [] /\
  fold_left (load_file basic_db (directory cwd [broken_csv; apples_csv]))
    [fst broken_csv; fst apples_csv] []
  = fold_left (load_file basic_db (directory cwd [broken_csv; apples_csv]))
      [fst apples_csv] [].
Proof.
  apply (@bad_integer_row_skips_file basic_db
           (directory cwd [broken_csv; apples_csv]) (fst broken_csv)
           [fst apples_csv] [] headers_ru (tl (snd broken_csv))
           [u "Груша"; u "abc"; u "1"] (Some 0) (Some 1) (Some 2)).
  - vm_compute. reflexivity.
  - vm_compute. reflexivity.
  - vm_compute. right. left. reflexivity.
  - left. exists (u "abc"). split; vm_compute; reflexivity.
Defined.

(** The rows around a bad row are lost with it: in [broken_csv] the
    first and the third row are accepted by [process_row], yet no row of
    the file reaches [self.data]. *)
Lemma bad_row_discards_sibling_rows :
  ~ (forall row item,
        In row (tl (snd broken_csv)) ->
        process_row basic_db (_search_product_price_weight headers_ru)
          (fst broken_csv) row = inr item ->
        In item (load_file basic_db (directory cwd [broken_csv]) []
                   (fst broken_csv))).
Proof.
  intros H.
  refine (H [u "Слива"; u "30"; u "4"] _ _ _).
  - vm_compute. left. reflexivity.
  - vm_compute. reflexivity.
Qed.

(** C8.  Whatever exception the processing of one file raises, it is
    caught, the file is skipped and the run goes on: [load_prices]
    returns normally, and [self.data] is what the other files alone
    would have produced. *)
Theorem bad_file_is_skipped db fs file_path data entries pre file post e :
  path_exists fs file_path = true ->
  listdir fs file_path = inr entries ->
  filter is_price_file entries = pre ++ file :: post ->
  try_file db fs file (fold_left (load_file db fs) pre data) = inl e ->
  load_prices db fs file_path data =
  (inr (VList (fold_left (load_file db fs) (pre ++ post) data)),
   fold_left (load_file db fs) (pre ++ post) data).
Proof.
  intros Hexists Hlist Hfiles Hraise.
  unfold load_prices. rewrite Hexists, Hlist. simpl. rewrite Hfiles.
  rewrite (@load_files_skip db fs pre file post data e Hraise).
  destruct pre; reflexivity.
Qed.

Lemma bad_file_is_skipped_witness :
  load_prices basic_db (directory cwd [no_weight_csv; apples_csv]) cwd []
  = (inr (VList [apple]), [apple]).
Proof.
  apply (@bad_file_is_skipped basic_db
           (directory cwd [no_weight_csv; apples_csv]) cwd []
           [fst no_weight_csv; fst apples_csv] [] (fst no_weight_csv)
           [fst apples_csv] TypeError).
  - vm_compute. reflexivity.
  - vm_compute. reflexivity.
  - vm_compute. reflexivity.
  - vm_compute. reflexivity.
Defined.

(** ** The result of [load_prices] *)

(** C6, as the code has it.  When the directory exists, can be listed
    and holds at least one price file, [load_prices] returns the list
    [self.data] itself, not a number: the records held before the call
    followed by those the files added, so that the length of the
    returned list is the final total count. *)
Theorem load_prices_returns_data db fs file_path data entries :
  path_exists fs file_path = true ->
  listdir fs file_path = inr entries ->
  filter is_price_file entries <> [] ->
  exists added,
    load_prices db fs file_path data
    = (inr (VList (data ++ added)), data ++ added).
Proof.
  intros Hexists Hlist Hfiles. unfold load_prices.
  rewrite Hexists, Hlist. simpl.
  destruct (filter is_price_file entries) as [| file files] eqn:Hfilter.
  - now elim Hfiles.
  - destruct (load_files_extends db fs (file :: files) data) as [added ->].
    now exists added.
Qed.

Lemma load_prices_returns_data_witness :
  exists added,
    load_prices basic_db (directory cwd [apples_csv]) cwd [apple]
    = (inr (VList ([apple] ++ added)), [apple] ++ added).
Proof.
  apply (@load_prices_returns_data basic_db (directory cwd [apples_csv]) cwd
           [apple] [fst apples_csv]).
  - vm_compute. reflexivity.
  - vm_compute. reflexivity.
  - vm_compute. discriminate.
Defined.

(** The value returned is a list, so it is not the count of the records:
    after loading [apples_csv] the count is 1 and the result is [[apple]]. *)
Lemma load_prices_result_is_not_a_count :
  fst (load_prices basic_db (directory cwd [apples_csv]) cwd [])
  <> inr (VInt (Z.of_nat
        (List.length (snd (load_prices basic_db (directory cwd [apples_csv]) cwd []))))).
Proof. vm_compute. discriminate. Qed.

(** C7.  [load_prices] raises [FileNotFoundError] when the path does
    not exist, whatever the files contain and without touching
    [self.data]; and it raises [ValueError] when the directory is listed
    and no entry both contains the literal ["price"] and ends with the
    literal [".csv"], both compared code point for code point. *)
Theorem load_prices_fatal_errors db fs file_path data :
  (path_exists fs file_path = false ->
   load_prices db fs file_path data = (inl FileNotFoundError, data)) /\
  (forall entries,
      path_exists fs file_path = true ->
      listdir fs file_path = inr entries ->
      (forall file, In file entries ->
         ~ ((exists pre post, file = pre ++ u "price" ++ post) /\
            (exists pre, file = pre ++ u ".csv"))) ->
      load_prices db fs file_path data = (inl ValueError, data)).
Proof.
  split.
  - intros Hmissing. unfold load_prices. now rewrite Hmissing.
  - intros entries Hexists Hlist Hnone. unfold load_prices.
    rewrite Hexists, Hlist. simpl.
    destruct (filter is_price_file entries) as [| file files] eqn:Hfilter.
    + reflexivity.
    + assert (Hin : In file (filter is_price_file entries))
        by (rewrite Hfilter; now left).
      apply filter_In in Hin as [Hin Hprice].
      unfold is_price_file in Hprice. apply andb_true_iff in Hprice as [Hc He].
      apply str_contains_substring in Hc. apply endswith_suffix in He.
      elim (Hnone file Hin). now split.
Qed.

Lemma load_prices_fatal_errors_witness :
  load_prices basic_db (directory cwd [apples_csv]) (u "missing") [apple]
  = (inl FileNotFoundError, [apple]) /\
  load_prices basic_db (directory cwd other_files) cwd [apple]
  = (inl ValueError, [apple]).
Proof.
  split.
  - apply (proj1 (load_prices_fatal_errors basic_db
                    (directory cwd [apples_csv]) (u "missing") [apple])).
    vm_compute. reflexivity.
  - apply (proj2 (load_prices_fatal_errors basic_db
                    (directory cwd other_files) cwd [apple])
             (map fst other_files)).
    + vm_compute. reflexivity.
    + vm_compute. reflexivity.
    + intros file Hin [Hc He].
      apply str_contains_substring in Hc. apply endswith_suffix in He.
      destruct Hin as [<- | [<- | [<- | []]]]; vm_compute in Hc, He;
        discriminate.
Defined.

(** ** Prices and weights that are stored *)

(** C9, as the code has it.  Every record of [self.data] has a weight
    different from zero, and its price and weight are the integers that
    [int] read from the row, unchanged: nothing is clamped, and a
    negative price or weight is stored as it is. *)
Theorem stored_weight_nonzero db :
  (forall data, reachable db data ->
     Forall (fun item => product_weight item <> 0%Z) data) /\
  (forall name_index price_index weight_index file row item,
     process_row db (name_index, price_index, weight_index) file row = inr item ->
     product_weight item <> 0%Z /\
     exists price_cell weight_cell,
       getitem row price_index = inr price_cell /\
       int_of_str db price_cell = inr (product_price item) /\
       getitem row weight_index = inr weight_cell /\
       int_of_str db weight_cell = inr (product_weight item)).
Proof.
  assert (Hrow : forall indices file row item,
             process_row db indices file row = inr item ->
             product_weight item <> 0%Z).
  { intros [[n p] w] file row item H.
    apply process_row_inr in H
      as (nc & pc & wc & q & _ & _ & _ & _ & _ & _ & _ & Hq & _).
    exact (@int_truediv_nonzero _ _ q Hq). }
  split.
  - intros data Hreach. exact (@reachable_Forall db _ Hrow data Hreach).
  - intros n p w file row item H. split; [exact (Hrow _ _ _ _ H) |].
    apply process_row_inr in H
      as (nc & pc & wc & q & _ & _ & Hp & Hpi & Hw & Hwi & _).
    now exists pc, wc.
Qed.

Lemma stored_weight_nonzero_witness :
  Forall (fun item => product_weight item <> 0%Z) [apple].
Proof.
  exact (proj1 (stored_weight_nonzero basic_db) [apple] reachable_apple).
Defined.

(** A negative price and a negative weight reach [self.data]. *)
Lemma negative_price_and_weight_are_stored :
  ~ Forall (fun item => (0 <= product_price item)%Z /\ (0 < product_weight item)%Z)
      (snd (load_prices basic_db (directory cwd [refunds_csv]) cwd [])).
Proof.
  intros H. vm_compute in H. inversion H as [| ? ? [Hprice _] _].
  apply Hprice. reflexivity.
Qed.

Example refunds_loaded :
  map (fun item => (product_price item, product_weight item))
      (snd (load_prices basic_db (directory cwd [refunds_csv]) cwd []))
  = [((-5)%Z, 2%Z); (10%Z, (-4)%Z)].
Proof. vm_compute. reflexivity. Qed.

Example zero_weight_row_raises :
  process_row basic_db (Some 0, Some 1, Some 2) (u "price1.csv")
    [u "Соль"; u "10"; u "0"]
  = inl ZeroDivisionError.
Proof. vm_compute. reflexivity. Qed.

(** ** Normalized names *)

Lemma lstrip_head (s : str) c t : lstrip s = c :: t -> is_space c = false.
Proof.
  induction s as [| a s IH]; simpl.
  - discriminate.
  - destruct (is_space a) eqn:Ha; [assumption |].
    intros H. injection H as <- _. assumption.
Qed.

Lemma lstrip_suffix (s : str) : exists pre, s = pre ++ lstrip s.
Proof.
  induction s as [| a s [pre IH]]; simpl.
  - now exists [].
  - destruct (is_space a).
    + exists (a :: pre). simpl. now rewrite <- IH.
    + now exists [].
Qed.

Lemma rstrip_prefix (s : str) : exists post, s = rstrip s ++ post.
Proof.
  unfold rstrip. destruct (lstrip_suffix (rev s)) as [pre H].
  exists (rev pre).
  rewrite <- rev_app_distr, <- H. symmetry. apply rev_involutive.
Qed.

Lemma strip_infix (s : str) : exists pre post, s = pre ++ strip s ++ post.
Proof.
  unfold strip. destruct (lstrip_suffix s) as [pre Hpre].
  destruct (rstrip_prefix (lstrip s)) as [post Hpost].
  exists pre, post. now rewrite <- Hpost.
Qed.

Lemma strip_no_outer_space (s : str) : no_outer_space (strip s).
Proof.
  unfold strip. split; intros c t H.
  - destruct (rstrip_prefix (lstrip s)) as [post Hpost].
    rewrite H in Hpost. simpl in Hpost.
    now apply lstrip_head in Hpost.
  - unfold rstrip in H. apply (f_equal (@rev codepoint)) in H.
    rewrite rev_involutive, rev_app_distr in H. simpl in H.
    now apply lstrip_head in H.
Qed.

Lemma strip_Forall (P : codepoint -> Prop) (s : str) :
  Forall P s -> Forall P (strip s).
Proof.
  intros H. destruct (strip_infix s) as [pre [post Hs]].
  rewrite Hs in H. apply Forall_app in H as [_ H].
  now apply Forall_app in H as [H _].
Qed.

Lemma do_lower_lower_chars db (before s : str) :
  lowercase_closed db -> Forall (lower_char db) (do_lower db before s).
Proof.
  intros [Hfull [Hfinal Hsmall]]. revert before.
  induction s as [| c t IH]; intros before; simpl.
  - constructor.
  - apply Forall_app. split; [| apply IH].
    destruct (c =? capital_sigma)%N.
    + constructor; [| constructor].
      unfold handle_capital_sigma.
      match goal with |- lower_char db (if ?b then _ else _) => destruct b end;
        assumption.
    + apply Forall_forall. intros d Hd. exact (Hfull c d Hd).
Qed.

Lemma do_lower_fixed db (before s : str) :
  Forall (lower_char db) s -> do_lower db before s = s.
Proof.
  intros H. revert before.
  induction H as [| c t [Hc Hfull] _ IH]; intros before; simpl.
  - reflexivity.
  - apply N.eqb_neq in Hc. rewrite Hc, Hfull, IH. reflexivity.
Qed.

Lemma strip_lower_fixed db (s : str) :
  lowercase_closed db ->
  lower db (strip (lower db s)) = strip (lower db s).
Proof.
  intros Hdb. apply do_lower_fixed, strip_Forall.
  now apply do_lower_lower_chars.
Qed.

Lemma process_row_normalized db indices file row item :
  lowercase_closed db ->
  process_row db indices file row = inr item -> normalized db item.
Proof.
  intros Hdb H. destruct indices as [[n p] w].
  apply process_row_inr in H
    as (nc & pc & wc & q & _ & Hname & _ & _ & _ & _ & _ & Hq & Hr).
  unfold normalized. rewrite Hq, Hname. simpl. repeat split.
  - assumption.
  - apply strip_no_outer_space.
  - apply strip_no_outer_space.
  - now apply strip_lower_fixed.
Qed.

(** C2.  Every record that normalization produced and [self.data]
    holds has a [price_per_kg] equal to [round(price / weight, 1)] taken
    on its own price and weight, and a name that neither starts nor ends
    with white space and that [lower()] leaves unchanged. *)
Theorem stored_records_normalized db data :
  lowercase_closed db ->
  reachable db data ->
  Forall (normalized db) data.
Proof.
  intros Hdb Hreach.
  apply (@reachable_Forall db (normalized db)); [| assumption].
  intros indices file row item. now apply process_row_normalized.
Qed.

Lemma basic_to_lower_fixed (d : codepoint) :
  in_range 0x41%N 0x5A%N d = false ->
  in_range 0x400%N 0x42F%N d = false ->
  d <> capital_sigma ->
  basic_to_lower d = [d].
Proof.
  unfold basic_to_lower, in_range, capital_sigma. intros H1 H2 H3.
  rewrite H1. apply N.eqb_neq in H3. rewrite H3.
  destruct ((0x400 <=? d) && (d <=? 0x40F))%N eqn:Ha;
    destruct ((0x410 <=? d) && (d <=? 0x42F))%N eqn:Hb; try reflexivity;
    exfalso;
    rewrite ?andb_true_iff, ?andb_false_iff, ?N.leb_le, ?N.leb_gt in *; lia.
Qed.

Lemma basic_db_lowercase_closed : lowercase_closed basic_db.
Proof.
  unfold lowercase_closed, lower_char. simpl. split; [| split].
  - intros c d. unfold basic_to_lower at 1.
    destruct (in_range 0x41%N 0x5A%N c) eqn:H1;
      [| destruct (in_range 0x400%N 0x40F%N c) eqn:H2;
         [| destruct (in_range 0x410%N 0x42F%N c) eqn:H3;
            [| destruct (c =? capital_sigma)%N eqn:H4]]];
      intros [<- | []];
      unfold in_range, capital_sigma, small_sigma in *;
      rewrite ?andb_true_iff, ?andb_false_iff, ?N.leb_le, ?N.leb_gt,
        ?N.eqb_eq, ?N.eqb_neq in *;
      (split; [lia |]);
      apply basic_to_lower_fixed;
      unfold in_range, capital_sigma;
      rewrite ?andb_false_iff, ?N.leb_gt; lia.
  - split; [discriminate | reflexivity].
  - split; [discriminate | reflexivity].
Defined.

Lemma stored_records_normalized_witness : Forall (normalized basic_db) [apple].
Proof.
  exact (@stored_records_normalized basic_db [apple]
           basic_db_lowercase_closed reachable_apple).
Defined.

(** ** The order of [float] *)

Lemma lex_compare_spec (a b : Z * Z * Z) :
  match lex_compare a b with
  | Lt => lex_lt a b
  | Eq => a = b
  | Gt => lex_lt b a
  end.
Proof.
  destruct a as [[a1 a2] a3], b as [[b1 b2] b3]. unfold lex_compare, lex_lt.
  destruct (Z.compare_spec a1 b1); [| lia | lia].
  destruct (Z.compare_spec a2 b2); [| lia | lia].
  destruct (Z.compare_spec a3 b3); [congruence | lia | lia].
Qed.

Lemma lex_lt_irrefl (a : Z * Z * Z) : ~ lex_lt a a.
Proof. destruct a as [[a1 a2] a3]. unfold lex_lt. lia. Qed.

Lemma lex_lt_trans (a b c : Z * Z * Z) : lex_lt a b -> lex_lt b c -> lex_lt a c.
Proof.
  destruct a as [[a1 a2] a3], b as [[b1 b2] b3], c as [[c1 c2] c3].
  unfold lex_lt. lia.
Qed.

Lemma SFcompare_rank (x y : float) :
  not_nan x -> not_nan y ->
  SFcompare x y = Some (lex_compare (rank x) (rank y)).
Proof.
  intros Hx Hy.
  destruct x as [sx | sx | | sx mx ex]; [| | now elim Hx |];
    (destruct y as [sy | sy | | sy my ey]; [| | now elim Hy |]);
    try destruct sx; try destruct sy; try reflexivity; simpl.
  rewrite Z.compare_opp, (Z.compare_antisym ex ey).
  destruct (ex ?= ey)%Z; reflexivity.
Qed.

Lemma SFltb_rank (x y : float) :
  SFltb x y = true <-> not_nan x /\ not_nan y /\ lex_lt (rank x) (rank y).
Proof.
  unfold SFltb. split.
  - intros H.
    assert (Hx : not_nan x) by (intros ->; discriminate).
    assert (Hy : not_nan y) by (intros ->; destruct x; discriminate).
    repeat split; try assumption.
    rewrite (SFcompare_rank Hx Hy) in H.
    pose proof (lex_compare_spec (rank x) (rank y)) as Hs.
    destruct (lex_compare (rank x) (rank y)); [discriminate | assumption | discriminate].
  - intros [Hx [Hy Hlt]]. rewrite (SFcompare_rank Hx Hy).
    pose proof (lex_compare_spec (rank x) (rank y)) as Hs.
    destruct (lex_compare (rank x) (rank y)).
    + rewrite Hs in Hlt. now apply lex_lt_irrefl in Hlt.
    + reflexivity.
    + elim (@lex_lt_irrefl (rank x)). now apply lex_lt_trans with (rank y).
Qed.

Lemma SFeqb_rank (x y : float) :
  SFeqb x y = true <-> not_nan x /\ not_nan y /\ rank x = rank y.
Proof.
  unfold SFeqb. split.
  - intros H.
    assert (Hx : not_nan x) by (intros ->; discriminate).
    assert (Hy : not_nan y) by (intros ->; destruct x; discriminate).
    repeat split; try assumption.
    rewrite (SFcompare_rank Hx Hy) in H.
    pose proof (lex_compare_spec (rank x) (rank y)) as Hs.
    destruct (lex_compare (rank x) (rank y)); [assumption | discriminate | discriminate].
  - intros [Hx [Hy Heq]]. rewrite (SFcompare_rank Hx Hy).
    pose proof (lex_compare_spec (rank x) (rank y)) as Hs.
    destruct (lex_compare (rank x) (rank y)).
    + reflexivity.
    + rewrite Heq in Hs. now apply lex_lt_irrefl in Hs.
    + rewrite Heq in Hs. now apply lex_lt_irrefl in Hs.
Qed.

Lemma SFleb_rank (x y : float) :
  SFleb x y = true <->
  not_nan x /\ not_nan y /\ (lex_lt (rank x) (rank y) \/ rank x = rank y).
Proof.
  unfold SFleb. split.
  - intros H.
    assert (Hx : not_nan x) by (intros ->; discriminate).
    assert (Hy : not_nan y) by (intros ->; destruct x; discriminate).
    repeat split; try assumption.
    rewrite (SFcompare_rank Hx Hy) in H.
    pose proof (lex_compare_spec (rank x) (rank y)) as Hs.
    destruct (lex_compare (rank x) (rank y)); [now right | now left | discriminate].
  - intros [Hx [Hy Hle]]. rewrite (SFcompare_rank Hx Hy).
    pose proof (lex_compare_spec (rank x) (rank y)) as Hs.
    destruct (lex_compare (rank x) (rank y)); try reflexivity.
    destruct Hle as [Hlt | Heq].
    + elim (@lex_lt_irrefl (rank x)). now apply lex_lt_trans with (rank y).
    + rewrite Heq in Hs. now apply lex_lt_irrefl in Hs.
Qed.

Lemma float_le_total (x y : float) :
  not_nan x -> not_nan y -> float_lt x y = false -> float_le y x.
Proof.
  intros Hx Hy Hlt. unfold float_le. apply SFleb_rank.
  repeat split; try assumption.
  unfold float_lt, SFltb in Hlt. rewrite (SFcompare_rank Hx Hy) in Hlt.
  pose proof (lex_compare_spec (rank x) (rank y)) as Hs.
  destruct (lex_compare (rank x) (rank y));
    [now right | discriminate | now left].
Qed.

Lemma float_le_trans (x y z : float) : float_le x y -> float_le y z -> float_le x z.
Proof.
  unfold float_le. rewrite !SFleb_rank.
  intros [Hx [Hy Hxy]] [_ [Hz Hyz]]. repeat split; try assumption.
  destruct Hxy as [Hxy | Hxy], Hyz as [Hyz | Hyz].
  - left. now apply lex_lt_trans with (rank y).
  - left. now rewrite <- Hyz.
  - left. now rewrite Hxy.
  - right. congruence.
Qed.

Lemma float_lt_le (x y : float) : float_lt x y = true -> float_le x y.
Proof.
  unfold float_lt, float_le. rewrite SFltb_rank, SFleb_rank.
  intros [Hx [Hy Hlt]]. auto.
Qed.

Lemma float_lt_le_trans (x y z : float) :
  float_lt x y = true -> float_le y z -> float_lt x z = true.
Proof.
  unfold float_lt, float_le. rewrite !SFltb_rank, SFleb_rank.
  intros [Hx [Hy Hxy]] [_ [Hz Hyz]]. repeat split; try assumption.
  destruct Hyz as [Hyz | Hyz].
  - now apply lex_lt_trans with (rank y).
  - now rewrite <- Hyz.
Qed.

Lemma float_lt_not_eq (x z k : float) :
  float_lt x z = true -> SFeqb x k = true -> SFeqb z k = false.
Proof.
  unfold float_lt. rewrite SFltb_rank, SFeqb_rank.
  intros [Hx [Hz Hlt]] [_ [Hk Heq]].
  destruct (SFeqb z k) eqn:Hzk; [| reflexivity].
  apply SFeqb_rank in Hzk as [_ [_ Hzk]].
  rewrite Heq, <- Hzk in Hlt. now apply lex_lt_irrefl in Hlt.
Qed.

Lemma SFeqb_refl (x : float) : not_nan x -> SFeqb x x = true.
Proof. intros Hx. apply SFeqb_rank. auto. Qed.

(** ** Stored keys are numbers *)

Lemma shr_1_nonneg (mrs : shr_record) :
  (0 <= shr_m mrs)%Z -> (0 <= shr_m (shr_1 mrs))%Z.
Proof.
  destruct mrs as [m r s]. simpl.
  destruct m as [| p | p]; [| destruct p | destruct p]; simpl; lia.
Qed.

Lemma iter_pos_invariant (A : Type) (P : A -> Prop) (f : A -> A) :
  (forall x, P x -> P (f x)) ->
  forall p x, P x -> P (iter_pos f p x).
Proof.
  intros Hf. induction p as [p IH | p IH |]; intros x Hx; simpl; auto.
Qed.

Lemma shr_nonneg (mrs : shr_record) (e n : Z) :
  (0 <= shr_m mrs)%Z -> (0 <= shr_m (fst (shr mrs e n)))%Z.
Proof.
  intros H. unfold shr. destruct n as [| p | p]; simpl; try assumption.
  apply (@iter_pos_invariant _ (fun r => (0 <= shr_m r)%Z)); [| assumption].
  exact shr_1_nonneg.
Qed.

Lemma shr_fexp_nonneg (m e : Z) (l : location) :
  (0 <= m)%Z -> (0 <= shr_m (fst (shr_fexp prec emax m e l)))%Z.
Proof.
  intros H. unfold shr_fexp. apply shr_nonneg.
  destruct l as [| []]; assumption.
Qed.

Lemma round_nearest_even_nonneg (m : Z) (l : location) :
  (0 <= m)%Z -> (0 <= round_nearest_even m l)%Z.
Proof.
  intros H. destruct l as [| []]; simpl; try destruct (Z.even m); lia.
Qed.

Lemma binary_round_aux_not_nan (sx : bool) (mx ex : Z) (lx : location) :
  (0 <= mx)%Z -> not_nan (binary_round_aux prec emax sx mx ex lx).
Proof.
  intros H. unfold binary_round_aux.
  pose proof (@shr_fexp_nonneg mx ex lx H) as H1.
  destruct (shr_fexp prec emax mx ex lx) as [mrs' e']. simpl in H1.
  pose proof (@shr_fexp_nonneg
                (round_nearest_even (shr_m mrs') (loc_of_shr_record mrs'))
                e' loc_Exact (round_nearest_even_nonneg _ H1)) as H2.
  destruct (shr_fexp prec emax _ e' loc_Exact) as [mrs'' e'']. simpl in H2.
  destruct (shr_m mrs'') as [| m | m].
  - discriminate.
  - destruct (e'' <=? emax - prec)%Z; discriminate.
  - lia.
Qed.

Lemma SFdiv_finite_not_nan (sx sy : bool) (mx my : positive) (ex ey : Z) :
  not_nan (SFdiv prec emax (S754_finite sx mx ex) (S754_finite sy my ey)).
Proof.
  unfold SFdiv, SFdiv_core_binary.
  set (e' := Z.min _ _). set (m' := match (ex - ey - e')%Z with
                                     | Z0 => Zpos mx
                                     | Zpos _ => Z.shiftl (Zpos mx) (ex - ey - e')
                                     | Zneg _ => 0%Z
                                     end).
  assert (Hm' : (0 <= m')%Z).
  { unfold m'. destruct (ex - ey - e')%Z; try lia.
    apply Z.shiftl_nonneg. lia. }
  destruct (Z.div_eucl m' (Zpos my)) as [q r] eqn:Hdiv.
  apply binary_round_aux_not_nan.
  assert (Hq : q = (m' / Zpos my)%Z) by (unfold Z.div; now rewrite Hdiv).
  rewrite Hq. apply Z.div_pos; lia.
Qed.

Lemma int_truediv_not_nan (a b : Z) (q : float) :
  int_truediv a b = inr q -> not_nan q.
Proof.
  unfold int_truediv. destruct (Z.eqb_spec b 0) as [| Hb]; [discriminate |].
  destruct b as [| pb | pb]; [now elim Hb | |];
    destruct a as [| pa | pa]; simpl exact_of_int;
    (match goal with
     | |- context [SFdiv _ _ (S754_zero _) _] =>
       simpl; intros H; injection H as <-; discriminate
     | |- context [SFdiv _ _ (S754_finite ?sx ?mx ?ex) (S754_finite ?sy ?my ?ey)] =>
       pose proof (@SFdiv_finite_not_nan sx sy mx my ex ey) as Hnan;
       destruct (SFdiv prec emax (S754_finite sx mx ex) (S754_finite sy my ey));
       intros H; try discriminate; injection H as <-; assumption
     end).
Qed.

Lemma round1_not_nan (x r : float) : not_nan x -> round1 x = inr r -> not_nan r.
Proof.
  intros Hx. unfold round1. destruct x as [s | s | | s m e].
  - intros H. injection H as <-. discriminate.
  - intros H. injection H as <-. discriminate.
  - now elim Hx.
  - destruct (tenths m e) as [| k | k].
    + intros H. injection H as <-. discriminate.
    + pose proof (@SFdiv_finite_not_nan s false k 10 0 0) as Hnan.
      destruct (SFdiv prec emax (S754_finite s k 0) (S754_finite false 10 0));
        intros H; try discriminate; injection H as <-; assumption.
    + intros H. injection H as <-. discriminate.
Qed.

Lemma process_row_not_nan db indices file row item :
  process_row db indices file row = inr item -> not_nan (price_per_kg item).
Proof.
  intros H. destruct indices as [[n p] w].
  apply process_row_inr in H
    as (nc & pc & wc & q & _ & _ & _ & _ & _ & _ & _ & Hq & Hr).
  apply (@round1_not_nan q); [| assumption].
  exact (@int_truediv_not_nan _ _ q Hq).
Qed.

Lemma reachable_not_nan db data :
  reachable db data -> Forall (fun item => not_nan (price_per_kg item)) data.
Proof.
  apply (@reachable_Forall db (fun item => not_nan (price_per_kg item))).
  intros indices file row item. apply process_row_not_nan.
Qed.

(** ** Sorting *)

Section SortedFacts.

Variable A : Type.
Variable key : A -> float.

Let key_le (a b : A) : Prop := float_le (key a) (key b).
Let numbers (l : list A) : Prop := Forall (fun a => not_nan (key a)) l.
Let same_key (k : float) (a : A) : bool := SFeqb (key a) k.

Lemma insort_perm (x : A) (l : list A) : Permutation (insort key x l) (x :: l).
Proof.
  induction l as [| y t IH]; simpl.
  - apply Permutation_refl.
  - destruct (float_lt (key x) (key y)).
    + apply Permutation_refl.
    + apply perm_trans with (y :: x :: t).
      * now apply perm_skip.
      * apply perm_swap.
Qed.

Lemma fold_insort_perm (l acc : list A) :
  Permutation (fold_left (fun acc x => insort key x acc) l acc) (acc ++ l).
Proof.
  revert acc. induction l as [| x t IH]; intros acc; simpl.
  - rewrite app_nil_r. apply Permutation_refl.
  - apply perm_trans with (insort key x acc ++ t); [apply IH |].
    apply perm_trans with ((x :: acc) ++ t).
    + apply Permutation_app_tail, insort_perm.
    + simpl. apply Permutation_middle.
Qed.

Lemma insort_numbers (x : A) (l : list A) :
  not_nan (key x) -> numbers l -> numbers (insort key x l).
Proof.
  intros Hx Hl. unfold numbers. apply Forall_forall. intros a Ha.
  apply (Permutation_in _ (insort_perm x l)) in Ha.
  destruct Ha as [<- | Ha]; [assumption |].
  unfold numbers in Hl. rewrite Forall_forall in Hl. now apply Hl.
Qed.

Lemma insort_sorted (x : A) (l : list A) :
  not_nan (key x) -> numbers l ->
  StronglySorted key_le l -> StronglySorted key_le (insort key x l).
Proof.
  intros Hx Hl Hs. induction Hs as [| y t Hs IH Hy]; simpl.
  - constructor; constructor.
  - inversion Hl as [| ? ? Hny Hnt]; subst.
    destruct (float_lt (key x) (key y)) eqn:Hlt.
    + constructor; [now constructor |].
      constructor; [now apply float_lt_le |].
      rewrite Forall_forall in Hy |- *. intros z Hz.
      apply float_le_trans with (key y); [now apply float_lt_le | now apply Hy].
    + constructor; [now apply IH |].
      apply Forall_forall. intros z Hz.
      apply (Permutation_in _ (insort_perm x t)) in Hz.
      destruct Hz as [<- | Hz].
      * now apply float_le_total.
      * rewrite Forall_forall in Hy. now apply Hy.
Qed.

Lemma filter_none (f : A -> bool) (l : list A) :
  (forall a, In a l -> f a = false) -> filter f l = [].
Proof.
  induction l as [| a t IH]; intros H; simpl.
  - reflexivity.
  - rewrite (H a (or_introl eq_refl)). apply IH.
    intros b Hb. apply H. now right.
Qed.

(** Insertion keeps the elements of equal key in their order, the new
    element last among them. *)
Lemma insort_stable (k : float) (x : A) (l : list A) :
  StronglySorted key_le l ->
  filter (same_key k) (insort key x l)
  = filter (same_key k) l ++ filter (same_key k) [x].
Proof.
  intros Hs. induction Hs as [| y t Hs IH Hy].
  - reflexivity.
  - cbn [insort]. destruct (float_lt (key x) (key y)) eqn:Hlt.
    + change (x :: y :: t) with ([x] ++ y :: t). rewrite filter_app.
      change (filter (same_key k) [x]) with (if same_key k x then [x] else []).
      destruct (same_key k x) eqn:Hk.
      * rewrite (@filter_none (same_key k) (y :: t)); [reflexivity |].
        intros z Hz. unfold same_key in *.
        apply float_lt_not_eq with (key x); [| assumption].
        destruct Hz as [<- | Hz]; [assumption |].
        apply float_lt_le_trans with (key y); [assumption |].
        rewrite Forall_forall in Hy. now apply Hy.
      * now rewrite app_nil_r.
    + cbn [filter]. rewrite IH.
      destruct (same_key k y); reflexivity.
Qed.

Lemma fold_insort_sorted (l acc : list A) :
  numbers acc -> numbers l -> StronglySorted key_le acc ->
  StronglySorted key_le (fold_left (fun acc x => insort key x acc) l acc) /\
  forall k,
    filter (same_key k) (fold_left (fun acc x => insort key x acc) l acc)
    = filter (same_key k) acc ++ filter (same_key k) l.
Proof.
  revert acc. induction l as [| x t IH]; intros acc Hacc Hl Hs; simpl.
  - split; [assumption |]. intros k. now rewrite app_nil_r.
  - inversion Hl as [| ? ? Hx Ht]; subst.
    destruct (IH (insort key x acc)) as [Hsorted Hstable].
    + now apply insort_numbers.
    + assumption.
    + now apply insort_sorted.
    + split; [assumption |]. intros k.
      rewrite Hstable, insort_stable by assumption.
      rewrite <- app_assoc. simpl.
      destruct (same_key k x); reflexivity.
Qed.

Lemma sorted_perm (l : list A) : Permutation (sorted key l) l.
Proof. exact (fold_insort_perm l []). Qed.

Lemma sorted_sorted (l : list A) :
  numbers l -> StronglySorted key_le (sorted key l).
Proof.
  intros Hl. apply (fold_insort_sorted (acc := [])); try assumption; constructor.
Qed.

Lemma sorted_stable (l : list A) (k : float) :
  numbers l -> filter (same_key k) (sorted key l) = filter (same_key k) l.
Proof.
  intros Hl.
  destruct (@fold_insort_sorted l []) as [_ H]; try assumption; try constructor.
  exact (H k).
Qed.

End SortedFacts.

Lemma float_le_antisym (x y : float) :
  float_le x y -> float_le y x -> SFeqb x y = true.
Proof.
  unfold float_le. rewrite !SFleb_rank, SFeqb_rank.
  intros [Hx [Hy Hxy]] [_ [_ Hyx]]. repeat split; try assumption.
  destruct Hxy as [Hxy | Hxy]; [| assumption].
  destruct Hyx as [Hyx | Hyx]; [| now symmetry].
  elim (@lex_lt_irrefl (rank x)). now apply lex_lt_trans with (rank y).
Qed.

Lemma SFeqb_sym (x y : float) : SFeqb x y = true -> SFeqb y x = true.
Proof. rewrite !SFeqb_rank. intros [Hx [Hy H]]. auto. Qed.

(** The three properties of a stable sort leave no choice: two sorted
    lists with the same elements of each key, in the same order, are
    equal.  Any stable sorting algorithm therefore returns what
    [sorted] returns. *)
Lemma stable_sort_unique (A : Type) (key : A -> float) (l1 l2 : list A) :
  Forall (fun a => not_nan (key a)) l1 ->
  Forall (fun a => not_nan (key a)) l2 ->
  StronglySorted (fun a b => float_le (key a) (key b)) l1 ->
  StronglySorted (fun a b => float_le (key a) (key b)) l2 ->
  (forall k, filter (fun a => SFeqb (key a) k) l1
             = filter (fun a => SFeqb (key a) k) l2) ->
  l1 = l2.
Proof.
  intros Hn1. revert l2.
  induction Hn1 as [| a t1 Ha Hn1 IH]; intros l2 Hn2 Hs1 Hs2 Hsame.
  - destruct Hn2 as [| b t2 Hb _]; [reflexivity |].
    specialize (Hsame (key b)). simpl in Hsame.
    rewrite (SFeqb_refl Hb) in Hsame. discriminate.
  - destruct Hn2 as [| b t2 Hb Hn2].
    + specialize (Hsame (key a)). simpl in Hsame.
      rewrite (SFeqb_refl Ha) in Hsame. discriminate.
    + inversion Hs1 as [| ? ? Hs1' Hle1]; subst.
      inversion Hs2 as [| ? ? Hs2' Hle2]; subst.
      assert (Hab : float_le (key a) (key b)).
      { pose proof (Hsame (key b)) as H. simpl in H.
        rewrite (SFeqb_refl Hb) in H.
        assert (Hin : In b (filter (fun x => SFeqb (key x) (key b)) (a :: t1)))
          by (simpl; rewrite H; now left).
        apply filter_In in Hin as [[<- | Hin] _].
        - apply float_le_total; try assumption.
          unfold float_lt. destruct (SFltb (key a) (key a)) eqn:Hlt; [| reflexivity].
          apply SFltb_rank in Hlt as [_ [_ Hlt]]. now apply lex_lt_irrefl in Hlt.
        - rewrite Forall_forall in Hle1. now apply Hle1. }
      assert (Hba : float_le (key b) (key a)).
      { pose proof (Hsame (key a)) as H. simpl in H.
        rewrite (SFeqb_refl Ha) in H.
        assert (Hin : In a (filter (fun x => SFeqb (key x) (key a)) (b :: t2)))
          by (simpl; rewrite <- H; now left).
        apply filter_In in Hin as [[<- | Hin] _].
        - assumption.
        - rewrite Forall_forall in Hle2. now apply Hle2. }
      assert (Heq : a = b).
      { pose proof (Hsame (key a)) as H. simpl in H.
        rewrite (SFeqb_refl Ha), (@SFeqb_sym _ _ (float_le_antisym Hab Hba)) in H.
        now injection H. }
      subst b. f_equal. apply IH; try assumption.
      intros k. specialize (Hsame k). simpl in Hsame.
      destruct (SFeqb (key a) k); [now injection Hsame | assumption].
Qed.

(** ** Search *)

Lemma reachable_loaded db fs file_path :
  reachable db (snd (load_prices db fs file_path [])).
Proof.
  apply (@reachable_load db fs file_path []
           (fst (load_prices db fs file_path []))
           (snd (load_prices db fs file_path [])) (reachable_init db)).
  apply surjective_pairing.
Defined.

(** C1.  In every state of [self.data] and for every query,
    [find_text] returns exactly the records whose stored name contains
    the query, taken as it is given, as a run of consecutive characters;
    the result is in ascending order of [price_per_kg], and the records
    of equal [price_per_kg] keep the order in which they were inserted. *)
Theorem find_text_filters_and_sorts db data text :
  reachable db data ->
  Permutation (find_text data text)
    (filter (fun item => str_contains (product_name item) text) data) /\
  (forall item,
      In item (find_text data text) <->
      In item data /\ exists pre post, product_name item = pre ++ text ++ post) /\
  StronglySorted (fun a b => float_le (price_per_kg a) (price_per_kg b))
    (find_text data text) /\
  (forall k,
      filter (fun item => SFeqb (price_per_kg item) k) (find_text data text)
      = filter (fun item => SFeqb (price_per_kg item) k)
          (filter (fun item => str_contains (product_name item) text) data)).
Proof.
  intros Hreach. unfold find_text.
  set (found := filter (fun item => str_contains (product_name item) text) data).
  assert (Hnum : Forall (fun item => not_nan (price_per_kg item)) found).
  { apply Forall_forall. intros item Hin. apply filter_In in Hin as [Hin _].
    pose proof (reachable_not_nan Hreach) as H.
    rewrite Forall_forall in H. now apply H. }
  repeat split.
  - apply sorted_perm.
  - apply (Permutation_in _ (sorted_perm price_per_kg found)) in H.
    now apply filter_In in H as [H _].
  - apply (Permutation_in _ (sorted_perm price_per_kg found)) in H.
    apply filter_In in H as [_ H]. now apply str_contains_substring.
  - intros [Hin Hsub].
    apply (Permutation_in _ (Permutation_sym (sorted_perm price_per_kg found))).
    apply filter_In. split; [assumption | now apply str_contains_substring].
  - now apply sorted_sorted.
  - intros k. now apply sorted_stable.
Qed.

Example fruits_search_ties_keep_insertion_order :
  map (fun item => (product_name item, product_price item))
      (find_text fruits (u "ябло"))
  = [(u "яблоко красное", 100%Z); (u "яблоко зелёное", 150%Z);
     (u "яблочный сок", 50%Z)].
Proof. vm_compute. reflexivity. Qed.

Example fruits_search_query_is_not_lowered :
  find_text fruits (u "Яблоко") = [].
Proof. vm_compute. reflexivity. Qed.

Lemma find_text_filters_and_sorts_witness :
  Permutation (find_text fruits (u "ябло"))
    (filter (fun item => str_contains (product_name item) (u "ябло")) fruits) /\
  (forall item,
      In item (find_text fruits (u "ябло")) <->
      In item fruits /\
      exists pre post, product_name item = pre ++ u "ябло" ++ post) /\
  StronglySorted (fun a b => float_le (price_per_kg a) (price_per_kg b))
    (find_text fruits (u "ябло")) /\
  (forall k,
      filter (fun item => SFeqb (price_per_kg item) k)
        (find_text fruits (u "ябло"))
      = filter (fun item => SFeqb (price_per_kg item) k)
          (filter (fun item => str_contains (product_name item) (u "ябло"))
             fruits)).
Proof.
  exact (@find_text_filters_and_sorts basic_db fruits (u "ябло")
           (reachable_loaded basic_db (directory cwd [fruits_csv]) cwd)).
Defined.

(** C10.  With the empty string as the query, [find_text] returns every
    record of [self.data], each as often as it is stored; on an empty
    [self.data] it returns the empty list for every query.  [find_text]
    is a total function: no state and no query make it fail. *)
Theorem find_text_empty_query_and_empty_data :
  (forall data,
      Permutation (find_text data []) data /\
      (forall item, In item (find_text data []) <-> In item data) /\
      List.length (find_text data []) = List.length data) /\
  (forall text, find_text [] text = []).
Proof.
  split; [| reflexivity].
  intros data.
  assert (Hall : filter (fun item => str_contains (product_name item) []) data
                 = data).
  { induction data as [| item rest IH]; simpl.
    - reflexivity.
    - rewrite str_contains_empty, IH. reflexivity. }
  assert (Hperm : Permutation (find_text data []) data).
  { unfold find_text. rewrite Hall. apply sorted_perm. }
  repeat split.
  - assumption.
  - now apply Permutation_in.
  - apply Permutation_in. now apply Permutation_sym.
  - now apply Permutation_length.
Qed.

Example fruits_search_empty_query :
  map product_name (find_text fruits (u ""))
  = [u "груша"; u "яблоко красное"; u "яблоко зелёное"; u "яблочный сок"].
Proof. vm_compute. reflexivity. Qed.

(** * Further properties of the program *)

(** ** What a call of [load_prices] adds *)

Lemma load_file_from_empty db fs data file :
  load_file db fs data file = data ++ load_file db fs [] file.
Proof.
  unfold load_file, try_file.
  destruct (read_rows fs file) as [e | [| headers rows]]; simpl.
  - now rewrite app_nil_r.
  - now rewrite app_nil_r.
  - destruct (process_rows db _ file rows []) as [e | items]; simpl.
    + now rewrite app_nil_r.
    + reflexivity.
Qed.

Lemma load_files_from_empty db fs files data :
  fold_left (load_file db fs) files data
  = data ++ fold_left (load_file db fs) files [].
Proof.
  revert data. induction files as [| file rest IH]; intros data; simpl.
  - now rewrite app_nil_r.
  - rewrite (IH (load_file db fs data file)), (IH (load_file db fs [] file)).
    rewrite (load_file_from_empty db fs data file), app_assoc. reflexivity.
Qed.

Lemma load_prices_from_empty db fs file_path data :
  snd (load_prices db fs file_path data)
  = data ++ snd (load_prices db fs file_path []).
Proof.
  unfold load_prices.
  destruct (negb (path_exists fs file_path)); simpl.
  - now rewrite app_nil_r.
  - destruct (listdir fs file_path) as [e | entries]; simpl.
    + now rewrite app_nil_r.
    + destruct (filter is_price_file entries) as [| file files]; simpl.
      * now rewrite app_nil_r.
      * rewrite (load_files_from_empty db fs files (load_file db fs data file)).
        rewrite (load_files_from_empty db fs files (load_file db fs [] file)).
        rewrite (load_file_from_empty db fs data file), app_assoc.
        reflexivity.
Qed.

(** X1.  Whatever its outcome, a call of [load_prices] keeps the
    records that [self.data] held, in place, and appends to them what
    the files yield; what it appends does not depend on what
    [self.data] held.  Nothing is deduplicated: loading the same
    directory a second time stores every record a second time. *)
Theorem load_prices_appends db fs file_path data :
  snd (load_prices db fs file_path data)
  = data ++ snd (load_prices db fs file_path []) /\
  snd (load_prices db fs file_path (snd (load_prices db fs file_path [])))
  = snd (load_prices db fs file_path []) ++ snd (load_prices db fs file_path []).
Proof.
  split; apply load_prices_from_empty.
Qed.

(** ** Where the records come from *)

Lemma load_file_Forall_of_file db fs (P : data_row -> Prop) file data :
  (forall indices row item,
      process_row db indices file row = inr item -> P item) ->
  Forall P data -> Forall P (load_file db fs data file).
Proof.
  intros HP Hdata. unfold load_file, try_file.
  destruct (read_rows fs file) as [e | [| headers rows]]; simpl; trivial.
  destruct (process_rows db _ file rows []) as [e | items] eqn:Hrows;
    simpl; trivial.
  apply Forall_app. split; [assumption |].
  apply process_rows_returns in Hrows.
  induction Hrows; constructor; eauto.
Qed.

Lemma load_files_Forall_of_files db fs (P : data_row -> Prop) files data :
  (forall file, In file files ->
     forall indices row item,
       process_row db indices file row = inr item -> P item) ->
  Forall P data -> Forall P (fold_left (load_file db fs) files data).
Proof.
  revert data. induction files as [| file rest IH]; intros data HP Hdata; simpl.
  - assumption.
  - apply IH.
    + intros f Hf. apply HP. now right.
    + apply load_file_Forall_of_file; [| assumption].
      apply HP. now left.
Qed.

Lemma is_price_file_spec (file : str) :
  is_price_file file = true <->
  (exists pre post, file = pre ++ u "price" ++ post) /\
  (exists pre, file = pre ++ u ".csv").
Proof.
  unfold is_price_file.
  now rewrite andb_true_iff, str_contains_substring, endswith_suffix.
Qed.

(** X2.  Every record of [self.data] names as its source a file that
    passed the filter of [load_prices]: its [file_name] contains
    ["price"] and ends with [".csv"]. *)
Theorem stored_records_name_a_price_file db data :
  reachable db data ->
  Forall (fun item =>
            (exists pre post, file_name item = pre ++ u "price" ++ post) /\
            (exists pre, file_name item = pre ++ u ".csv")) data.
Proof.
  intros Hreach.
  induction Hreach as [| fs file_path data result data' _ IH Hload].
  - constructor.
  - unfold load_prices in Hload.
    destruct (negb (path_exists fs file_path)); [now injection Hload as _ <- |].
    destruct (listdir fs file_path) as [e | entries];
      [now injection Hload as _ <- |].
    destruct (filter is_price_file entries) as [| file files] eqn:Hfiles;
      [now injection Hload as _ <- |].
    injection Hload as _ <-.
    apply (@load_files_Forall_of_files db fs _ (file :: files)); [| assumption].
    intros f Hf [[n p] w] row item Hrow.
    apply process_row_inr in Hrow
      as (_ & _ & _ & _ & _ & _ & _ & _ & _ & _ & Hname & _).
    rewrite Hname. apply is_price_file_spec.
    rewrite <- Hfiles in Hf. now apply filter_In in Hf as [_ Hf].
Qed.

Lemma stored_records_name_a_price_file_witness :
  Forall (fun item =>
            (exists pre post, file_name item = pre ++ u "price" ++ post) /\
            (exists pre, file_name item = pre ++ u ".csv")) fruits.
Proof.
  exact (@stored_records_name_a_price_file basic_db fruits
           (reachable_loaded basic_db (directory cwd [fruits_csv]) cwd)).
Defined.

(** ** Files that are read completely, files that are dropped *)

(** X3.  When [process_row] accepts every data row of a file, the file
    appends exactly one record for each data row, in the order of the
    rows, after the records that [self.data] held. *)
Theorem load_file_all_rows_accepted db fs file data headers rows items :
  read_rows fs file = inr (headers :: rows) ->
  Forall2 (fun row item =>
             process_row db (_search_product_price_weight headers) file row
             = inr item) rows items ->
  load_file db fs data file = data ++ items /\
  List.length items = List.length rows.
Proof.
  intros Hread Hrows. split.
  - unfold load_file, try_file. rewrite Hread. simpl.
    apply process_rows_returns in Hrows. now rewrite Hrows.
  - symmetry. exact (Forall2_length Hrows).
Qed.

Lemma load_file_all_rows_accepted_witness :
  load_file basic_db (directory cwd [apples_csv]) [apple] (fst apples_csv)
  = [apple] ++ [apple] /\
  List.length [apple] = List.length (tl (snd apples_csv)).
Proof.
  apply (@load_file_all_rows_accepted basic_db (directory cwd [apples_csv])
           (fst apples_csv) [apple] headers_ru (tl (snd apples_csv)) [apple]).
  - vm_compute. reflexivity.
  - constructor; [vm_compute; reflexivity | constructor].
Defined.

(** X4.  A file whose header row fails to name one of the three columns
    and that has at least one data row raises in the body of [try] and
    appends no record. *)
Theorem missing_column_drops_file db fs file data headers row rows
        name_index price_index weight_index :
  read_rows fs file = inr (headers :: row :: rows) ->
  _search_product_price_weight headers = (name_index, price_index, weight_index) ->
  name_index = None \/ price_index = None \/ weight_index = None ->
  load_file db fs data file = data /\
  exists e, try_file db fs file data = inl e.
Proof.
  intros Hread Hidx Hmissing.
  destruct (@try_file_missing_column db fs file data headers row rows
              name_index price_index weight_index Hread Hidx Hmissing)
    as [e He].
  split; [exact (@load_file_raises db fs file data e He) | now exists e].
Qed.

Lemma missing_column_drops_file_witness :
  load_file basic_db (directory cwd [no_weight_csv]) [apple] (fst no_weight_csv)
  = [apple] /\
  exists e,
    try_file basic_db (directory cwd [no_weight_csv]) (fst no_weight_csv) [apple]
    = inl e.
Proof.
  apply (@missing_column_drops_file basic_db (directory cwd [no_weight_csv])
           (fst no_weight_csv) [apple] [u "товар"; u "цена"]
           [u "Мёд"; u "500"] [] (Some 0) (Some 1) None).
  - vm_compute. reflexivity.
  - vm_compute. reflexivity.
  - right. right. reflexivity.
Defined.

Lemma process_row_zero_weight db name_index price_index weight_index file row cell :
  getitem row weight_index = inr cell ->
  int_of_str db cell = inr 0%Z ->
  exists e,
    process_row db (name_index, price_index, weight_index) file row = inl e.
Proof.
  intros Hget Hzero. unfold process_row.
  destruct (getitem row name_index) as [e | name_cell]; simpl; [now exists e |].
  destruct (getitem row price_index) as [e | price_cell]; simpl; [now exists e |].
  destruct (int_of_str db price_cell) as [e | p]; simpl; [now exists e |].
  rewrite Hget. simpl. rewrite Hzero. simpl. now exists ZeroDivisionError.
Qed.

(** X5.  A data row whose weight cell reads as zero makes its whole file
    fail: the file appends no record, the rows with a sound weight
    included. *)
Theorem zero_weight_row_drops_file db fs file data headers rows row cell
        name_index price_index weight_index :
  read_rows fs file = inr (headers :: rows) ->
  _search_product_price_weight headers = (name_index, price_index, weight_index) ->
  In row rows ->
  getitem row weight_index = inr cell ->
  int_of_str db cell = inr 0%Z ->
  load_file db fs data file = data.
Proof.
  intros Hread Hidx Hin Hget Hzero.
  destruct (@process_row_zero_weight db name_index price_index weight_index file
              row cell Hget Hzero) as [e He].
  rewrite <- Hidx in He.
  destruct (@try_file_row_raises db fs file data headers rows row e Hread Hin He)
    as [e' He'].
  exact (@load_file_raises db fs file data e' He').
Qed.

Lemma zero_weight_row_drops_file_witness :
  load_file basic_db (directory cwd [salt_csv]) [apple] (fst salt_csv) = [apple].
Proof.
  apply (@zero_weight_row_drops_file basic_db (directory cwd [salt_csv])
           (fst salt_csv) [apple] headers_ru (tl (snd salt_csv))
           [u "Соль"; u "10"; u "0"] (u "0") (Some 0) (Some 1) (Some 2)).
  - vm_compute. reflexivity.
  - vm_compute. reflexivity.
  - vm_compute. right. left. reflexivity.
  - vm_compute. reflexivity.
  - vm_compute. reflexivity.
Defined.

(** ** Header rows *)

Lemma synonyms_disjoint (h : str) :
  (In h name_synonyms -> ~ In h price_synonyms /\ ~ In h weight_synonyms) /\
  (In h price_synonyms -> ~ In h weight_synonyms).
Proof.
  split.
  - intros Hn. split; intros H; apply str_in_list_In in H;
      destruct Hn as [<- | [<- | [<- | [<- | []]]]]; vm_compute in H;
      discriminate.
  - intros Hp H. apply str_in_list_In in H.
    destruct Hp as [<- | [<- | []]]; vm_compute in H; discriminate.
Qed.

(** X6.  The columns that [_search_product_price_weight] resolves are
    different columns: no index is returned for two fields. *)
Theorem resolved_columns_differ headers name_col price_col weight_col i :
  _search_product_price_weight headers = (name_col, price_col, weight_col) ->
  (name_col = Some i -> price_col <> Some i /\ weight_col <> Some i) /\
  (price_col = Some i -> weight_col <> Some i).
Proof.
  unfold _search_product_price_weight. intros H.
  apply pair_equal_spec in H as [H Ew]. apply pair_equal_spec in H as [En Ep].
  pose proof (next_index_leftmost name_synonyms headers) as Hn.
  pose proof (next_index_leftmost price_synonyms headers) as Hp.
  pose proof (next_index_leftmost weight_synonyms headers) as Hw.
  rewrite En in Hn. rewrite Ep in Hp. rewrite Ew in Hw. clear En Ep Ew.
  split.
  - intros En. rewrite En in Hn. destruct Hn as [[h [Hh Hin]] _].
    destruct (synonyms_disjoint h) as [Hdis _].
    destruct (Hdis Hin) as [Hnp Hnw]. split; intros E.
    + rewrite E in Hp. destruct Hp as [[h' [Hh' Hin']] _]. congruence.
    + rewrite E in Hw. destruct Hw as [[h' [Hh' Hin']] _]. congruence.
  - intros Ep E. rewrite Ep in Hp. destruct Hp as [[h [Hh Hin]] _].
    destruct (synonyms_disjoint h) as [_ Hdis].
    rewrite E in Hw. destruct Hw as [[h' [Hh' Hin']] _].
    apply (Hdis Hin). congruence.
Qed.

Lemma resolved_columns_differ_witness :
  (Some 0 = Some 0 -> Some 1 <> Some 0 /\ Some 2 <> Some 0) /\
  (Some 1 = Some 0 -> Some 2 <> Some 0).
Proof.
  apply (@resolved_columns_differ headers_ru (Some 0) (Some 1) (Some 2) 0).
  vm_compute. reflexivity.
Defined.

Lemma next_index_app (p : str -> bool) (headers extra : list str) (i k : nat) :
  next_index p i headers = Some k ->
  next_index p i (headers ++ extra) = Some k.
Proof.
  revert i. induction headers as [| h t IH]; intros i; simpl.
  - discriminate.
  - destruct (p h); [trivial | apply IH].
Qed.

(** X7.  Once a header row resolves all three columns, columns added
    to its right never change the resolution. *)
Theorem appended_columns_keep_resolution headers extra n p w :
  _search_product_price_weight headers = (Some n, Some p, Some w) ->
  _search_product_price_weight (headers ++ extra) = (Some n, Some p, Some w).
Proof.
  unfold _search_product_price_weight. intros H.
  apply pair_equal_spec in H as [H Hw]. apply pair_equal_spec in H as [Hn Hp].
  now rewrite (next_index_app _ _ extra _ Hn), (next_index_app _ _ extra _ Hp),
    (next_index_app _ _ extra _ Hw).
Qed.

Lemma appended_columns_keep_resolution_witness :
  _search_product_price_weight (headers_ru ++ [u "масса"; u "товар"])
  = (Some 0, Some 1, Some 2).
Proof.
  apply (@appended_columns_keep_resolution headers_ru [u "масса"; u "товар"]
           0 1 2).
  vm_compute. reflexivity.
Defined.

(** ** The sign of the price per unit *)

Lemma binary_round_aux_sign (sx : bool) (mx ex : Z) (lx : location) :
  (0 <= mx)%Z ->
  match binary_round_aux prec emax sx mx ex lx with
  | S754_zero s | S754_finite s _ _ | S754_infinity s => s = sx
  | S754_nan => False
  end.
Proof.
  intros H. unfold binary_round_aux.
  pose proof (@shr_fexp_nonneg mx ex lx H) as H1.
  destruct (shr_fexp prec emax mx ex lx) as [mrs' e']. simpl in H1.
  pose proof (@shr_fexp_nonneg
                (round_nearest_even (shr_m mrs') (loc_of_shr_record mrs'))
                e' loc_Exact (round_nearest_even_nonneg _ H1)) as H2.
  destruct (shr_fexp prec emax _ e' loc_Exact) as [mrs'' e'']. simpl in H2.
  destruct (shr_m mrs'') as [| m | m].
  - reflexivity.
  - destruct (e'' <=? emax - prec)%Z; reflexivity.
  - lia.
Qed.

Lemma SFdiv_finite_sign (sx sy : bool) (mx my : positive) (ex ey : Z) :
  match SFdiv prec emax (S754_finite sx mx ex) (S754_finite sy my ey) with
  | S754_zero s | S754_finite s _ _ | S754_infinity s => s = xorb sx sy
  | S754_nan => False
  end.
Proof.
  unfold SFdiv, SFdiv_core_binary.
  set (e' := Z.min _ _). set (m' := match (ex - ey - e')%Z with
                                     | Z0 => Zpos mx
                                     | Zpos _ => Z.shiftl (Zpos mx) (ex - ey - e')
                                     | Zneg _ => 0%Z
                                     end).
  assert (Hm' : (0 <= m')%Z).
  { unfold m'. destruct (ex - ey - e')%Z; try lia.
    apply Z.shiftl_nonneg. lia. }
  destruct (Z.div_eucl m' (Zpos my)) as [q r] eqn:Hdiv.
  apply binary_round_aux_sign.
  assert (Hq : q = (m' / Zpos my)%Z) by (unfold Z.div; now rewrite Hdiv).
  rewrite Hq. apply Z.div_pos; lia.
Qed.

Lemma int_truediv_sign (a b : Z) (q : float) :
  int_truediv a b = inr q ->
  finite_with_sign (xorb (a <? 0)%Z (b <? 0)%Z) q.
Proof.
  unfold int_truediv. destruct (Z.eqb_spec b 0) as [| Hb]; [discriminate |].
  destruct b as [| pb | pb]; [now elim Hb | |];
    destruct a as [| pa | pa]; simpl exact_of_int;
    (match goal with
     | |- context [SFdiv _ _ (S754_zero _) _] =>
       simpl; intros H; injection H as <-; reflexivity
     | |- context [SFdiv _ _ (S754_finite ?sx ?mx ?ex) (S754_finite ?sy ?my ?ey)] =>
       pose proof (@SFdiv_finite_sign sx sy mx my ex ey) as Hsign;
       destruct (SFdiv prec emax (S754_finite sx mx ex) (S754_finite sy my ey));
       intros H; try discriminate; injection H as <-; exact Hsign
     end).
Qed.

Lemma round1_sign (s : bool) (x r : float) :
  finite_with_sign s x -> round1 x = inr r -> finite_with_sign s r.
Proof.
  unfold round1. destruct x as [s' | s' | | s' m e]; intros Hx; simpl in Hx;
    try contradiction.
  - intros H. now injection H as <-.
  - destruct (tenths m e) as [| k | k].
    + intros H. now injection H as <-.
    + pose proof (@SFdiv_finite_sign s' false k 10 0 0) as Hsign.
      rewrite xorb_false_r in Hsign.
      destruct (SFdiv prec emax (S754_finite s' k 0) (S754_finite false 10 0));
        cbn iota beta; intros H; try discriminate; injection H as <-; simpl;
        congruence.
    + intros H. now injection H as <-.
Qed.

(** X8.  The [price_per_kg] of every record of [self.data] is a finite
    number, never an infinity and never NaN, and it carries a minus
    sign exactly when one of price and weight is negative and the other
    is not. *)
Theorem stored_price_per_kg_finite_and_signed db data :
  reachable db data ->
  Forall (fun item =>
            finite_with_sign
              (xorb (product_price item <? 0)%Z (product_weight item <? 0)%Z)
              (price_per_kg item)) data.
Proof.
  apply (@reachable_Forall db).
  intros [[n p] w] file row item H.
  apply process_row_inr in H
    as (nc & pc & wc & q & _ & _ & _ & _ & _ & _ & _ & Hq & Hr).
  apply (@round1_sign _ q); [| assumption].
  now apply int_truediv_sign.
Qed.

Lemma stored_price_per_kg_finite_and_signed_witness :
  Forall (fun item =>
            finite_with_sign
              (xorb (product_price item <? 0)%Z (product_weight item <? 0)%Z)
              (price_per_kg item)) fruits.
Proof.
  exact (@stored_price_per_kg_finite_and_signed basic_db fruits
           (reachable_loaded basic_db (directory cwd [fruits_csv]) cwd)).
Defined.

(** ** More on the search *)

Lemma find_text_In (data : list data_row) (text : str) (item : data_row) :
  In item (find_text data text) <->
  In item data /\ str_contains (product_name item) text = true.
Proof.
  unfold find_text.
  set (found := filter (fun item => str_contains (product_name item) text) data).
  split.
  - intros H. apply (Permutation_in _ (sorted_perm price_per_kg found)) in H.
    now apply filter_In in H.
  - intros H.
    apply (Permutation_in _ (Permutation_sym (sorted_perm price_per_kg found))).
    now apply filter_In.
Qed.

(** X9.  A longer query narrows the result: when the query [text] occurs
    inside the query [longer], every record that [find_text] returns
    for [longer] is also returned for [text]. *)
Theorem longer_query_narrows_result data text longer item :
  (exists pre post, longer = pre ++ text ++ post) ->
  In item (find_text data longer) -> In item (find_text data text).
Proof.
  intros [pre [post ->]]. rewrite !find_text_In.
  intros [Hin Hsub]. split; [assumption |].
  apply str_contains_substring in Hsub as [pre' [post' Hname]].
  apply str_contains_substring.
  exists (pre' ++ pre), (post ++ post').
  rewrite Hname, <- !app_assoc. reflexivity.
Qed.

Lemma longer_query_narrows_result_witness :
  In (nth 0 fruits apple) (find_text fruits (u "ябло")).
Proof.
  apply (@longer_query_narrows_result fruits (u "ябло") (u "яблоко к")
           (nth 0 fruits apple)).
  - exists [], (u "ко к"). vm_compute. reflexivity.
  - vm_compute. left. reflexivity.
Defined.

(** X10.  Loading never hides a record from the search: a record that
    [find_text] returns before a call of [load_prices] is returned for
    the same query after the call, whatever the outcome of the call. *)
Theorem found_before_load_found_after db fs file_path data text item :
  In item (find_text data text) ->
  In item (find_text (snd (load_prices db fs file_path data)) text).
Proof.
  rewrite !find_text_In, (load_prices_from_empty db fs file_path data).
  intros [Hin Hsub]. split; [| assumption].
  apply in_or_app. now left.
Qed.

Lemma found_before_load_found_after_witness :
  In apple
     (find_text (snd (load_prices basic_db (directory cwd [fruits_csv]) cwd
                        [apple])) (u "ябл")).
Proof.
  apply (@found_before_load_found_after basic_db (directory cwd [fruits_csv])
           cwd [apple] (u "ябл") apple).
  vm_compute. left. reflexivity.
Defined.

(** X11.  The result of [find_text] is the only arrangement of the
    matching records that is ascending in [price_per_kg] and keeps the
    records of equal [price_per_kg] in their order of insertion: a list
    with these properties is the list that [find_text] returns. *)
Theorem find_text_is_the_stable_arrangement db data text out :
  reachable db data ->
  Permutation out
    (filter (fun item => str_contains (product_name item) text) data) ->
  StronglySorted (fun a b => float_le (price_per_kg a) (price_per_kg b)) out ->
  (forall k,
      filter (fun item => SFeqb (price_per_kg item) k) out
      = filter (fun item => SFeqb (price_per_kg item) k)
          (filter (fun item => str_contains (product_name item) text) data)) ->
  out = find_text data text.
Proof.
  intros Hreach Hperm Hsorted Hstable. unfold find_text.
  set (found := filter (fun item => str_contains (product_name item) text) data)
    in *.
  assert (Hnum : Forall (fun item => not_nan (price_per_kg item)) found).
  { apply Forall_forall. intros item Hin. apply filter_In in Hin as [Hin _].
    pose proof (reachable_not_nan Hreach) as H.
    rewrite Forall_forall in H. now apply H. }
  apply (@stable_sort_unique _ price_per_kg).
  - apply Forall_forall. intros item Hin.
    rewrite Forall_forall in Hnum. apply Hnum.
    now apply (Permutation_in _ Hperm).
  - apply Forall_forall. intros item Hin.
    rewrite Forall_forall in Hnum. apply Hnum.
    now apply (Permutation_in _ (sorted_perm price_per_kg found)).
  - assumption.
  - now apply sorted_sorted.
  - intros k. rewrite Hstable. symmetry. now apply sorted_stable.
Qed.

Lemma find_text_is_the_stable_arrangement_witness :
  [nth 0 fruits apple; nth 2 fruits apple; nth 3 fruits apple]
  = find_text fruits (u "ябло").
Proof.
  assert (E : filter (fun item => str_contains (product_name item) (u "ябло"))
                fruits
              = [nth 0 fruits apple; nth 2 fruits apple; nth 3 fruits apple])
    by (vm_compute; reflexivity).
  apply (@find_text_is_the_stable_arrangement basic_db fruits (u "ябло")
           [nth 0 fruits apple; nth 2 fruits apple; nth 3 fruits apple]
           (reachable_loaded basic_db (directory cwd [fruits_csv]) cwd)).
  - rewrite E. apply Permutation_refl.
  - repeat constructor; vm_compute; reflexivity.
  - intros k. rewrite E. reflexivity.
Defined.

(** ** Decimal numerals *)

Lemma uint_chars_to_ascii db (d : Decimal.uint) :
  map (to_ascii db) (uint_chars d) = uint_chars d.
Proof.
  induction d as [| d IH | d IH | d IH | d IH | d IH | d IH | d IH | d IH
                  | d IH | d IH]; simpl; try rewrite IH; reflexivity.
Qed.

Lemma uint_chars_skip_spaces (d : Decimal.uint) :
  skip_spaces (uint_chars d) = uint_chars d.
Proof. destruct d; reflexivity. Qed.

Lemma uint_chars_split_sign (d : Decimal.uint) :
  split_sign (uint_chars d) = (false, uint_chars d).
Proof. destruct d; reflexivity. Qed.

Lemma scan_digits_acc (d : Decimal.uint) (acc : positive) :
  scan_digits AfterDigit (Zpos acc) (uint_chars d)
  = Some (Zpos (Pos.of_uint_acc d acc), []).
Proof.
  revert acc.
  induction d as [| d IH | d IH | d IH | d IH | d IH | d IH | d IH | d IH
                  | d IH | d IH]; intros acc;
    [reflexivity | ..];
    cbn [uint_chars scan_digits Pos.of_uint_acc];
    (match goal with
     | |- context [is_ascii_digit ?c] =>
       change (is_ascii_digit c) with true; cbv iota
     end);
    rewrite <- IH; f_equal; lia.
Qed.

Lemma scan_digits_zero (d : Decimal.uint) :
  scan_digits AfterDigit 0 (uint_chars d) = Some (Z.of_N (Pos.of_uint d), []).
Proof.
  induction d as [| d IH | d IH | d IH | d IH | d IH | d IH | d IH | d IH
                  | d IH | d IH];
    [reflexivity | exact IH | ..];
    cbn [uint_chars scan_digits Pos.of_uint];
    (match goal with
     | |- context [is_ascii_digit ?c] =>
       change (is_ascii_digit c) with true; cbv iota
     end);
    (match goal with
     | |- scan_digits _ ?z _ = Some (Z.of_N (Npos (Pos.of_uint_acc _ ?p)), _) =>
       change z with (Zpos p)
     end);
    apply scan_digits_acc.
Qed.

Lemma scan_digits_at_start (d : Decimal.uint) :
  d <> Decimal.Nil ->
  scan_digits AtStart 0 (uint_chars d) = scan_digits AfterDigit 0 (uint_chars d).
Proof. destruct d; [now intros H | reflexivity ..]. Qed.

Lemma to_uint_not_nil (p : positive) : Pos.to_uint p <> Decimal.Nil.
Proof.
  intros H. pose proof (DecimalPos.Unsigned.of_to p) as Hp.
  rewrite H in Hp. discriminate.
Qed.

Lemma int_of_uint_chars db (d : Decimal.uint) :
  d <> Decimal.Nil ->
  int_of_str db (uint_chars d) = inr (Z.of_N (Pos.of_uint d)) /\
  int_of_str db (0x2D%N :: uint_chars d) = inr (- Z.of_N (Pos.of_uint d))%Z.
Proof.
  intros Hd. unfold int_of_str. split.
  - rewrite uint_chars_to_ascii, uint_chars_skip_spaces, uint_chars_split_sign.
    cbv beta iota.
    rewrite (scan_digits_at_start Hd), scan_digits_zero. reflexivity.
  - cbn [map]. rewrite uint_chars_to_ascii.
    change (to_ascii db 0x2D%N) with 0x2D%N.
    change (skip_spaces (0x2D%N :: uint_chars d)) with (0x2D%N :: uint_chars d).
    change (split_sign (0x2D%N :: uint_chars d)) with (true, uint_chars d).
    cbv beta iota.
    rewrite (scan_digits_at_start Hd), scan_digits_zero. reflexivity.
Qed.

(** X12.  What the export prints for a price or a weight, ingestion
    reads back as the same number: [int] applied to the decimal numeral
    of an integer returns that integer, under every character
    database. *)
Theorem int_of_str_of_int db (z : Z) : int_of_str db (str_of_int z) = inr z.
Proof.
  unfold str_of_int. destruct z as [| p | p]; simpl Z.to_int.
  - reflexivity.
  - destruct (@int_of_uint_chars db (Pos.to_uint p) (to_uint_not_nil p)) as [H _].
    rewrite H, DecimalPos.Unsigned.of_to. reflexivity.
  - destruct (@int_of_uint_chars db (Pos.to_uint p) (to_uint_not_nil p)) as [_ H].
    rewrite H, DecimalPos.Unsigned.of_to. reflexivity.
Qed.

(** ** The exported document *)

Section ExportFacts.

Variable float_str : float -> str.

Lemma export_rows_table_rows (data : list data_row) (number : nat) (result : str) :
  export_rows float_str number data result
  = result ++ table_rows float_str number data.
Proof.
  revert number result. induction data as [| item rest IH]; intros number result.
  - cbn [export_rows table_rows]. now rewrite app_nil_r.
  - cbn [export_rows table_rows]. rewrite IH, <- app_assoc. reflexivity.
Qed.

Lemma table_rows_app (before after : list data_row) (number : nat) :
  table_rows float_str number (before ++ after)
  = table_rows float_str number before
    ++ table_rows float_str (number + List.length before) after.
Proof.
  revert number. induction before as [| item rest IH]; intros number;
    cbn [app table_rows List.length].
  - now rewrite Nat.add_0_r.
  - rewrite IH, <- app_assoc, Nat.add_succ_r. reflexivity.
Qed.

Lemma html_document_split (before after : list data_row) (item : data_row) :
  html_document float_str (before ++ item :: after)
  = html_head
    ++ table_rows float_str 0 before
    ++ html_row float_str (List.length before) item
    ++ table_rows float_str (S (List.length before)) after
    ++ html_tail.
Proof.
  unfold html_document. rewrite export_rows_table_rows, table_rows_app.
  cbn [table_rows Nat.add]. rewrite <- !app_assoc. reflexivity.
Qed.

End ExportFacts.

(** X13.  The exported document is the fixed head, one row for each
    record of [self.data] in stored order, and the fixed tail; the row
    of the record at position [i], counted from 0, carries the number
    [i + 1].  With no record the document is the head followed at once
    by the tail. *)
Theorem html_document_rows float_str :
  (forall before item after,
      html_document float_str (before ++ item :: after)
      = html_head
        ++ table_rows float_str 0 before
        ++ (u "<tr>" ++ nl
            ++ td (str_of_int (Z.of_nat (List.length before) + 1))
            ++ td (product_name item)
            ++ td (str_of_int (product_price item))
            ++ td (str_of_int (product_weight item))
            ++ td (file_name item)
            ++ td (float_str (price_per_kg item))
            ++ u "</tr>" ++ nl)
        ++ table_rows float_str (S (List.length before)) after
        ++ html_tail) /\
  html_document float_str [] = html_head ++ html_tail.
Proof.
  split; [| reflexivity].
  intros before item after. apply html_document_split.
Qed.

(** X14.  The export escapes nothing: the name of every record of
    [self.data] stands in the document between [<td>] and [</td>]
    exactly as it is stored, markup characters included. *)
Theorem html_document_holds_names_verbatim float_str data item :
  In item data ->
  exists pre post,
    html_document float_str data
    = pre ++ (u "<td>" ++ product_name item ++ u "</td>" ++ nl) ++ post.
Proof.
  intros Hin. apply in_split in Hin as [before [after ->]].
  rewrite html_document_split. unfold html_row.
  exists (html_head ++ table_rows float_str 0 before ++ u "<tr>" ++ nl
          ++ td (str_of_int (Z.of_nat (List.length before) + 1))).
  eexists. unfold td at 2. rewrite <- !app_assoc. reflexivity.
Qed.

Lemma html_document_holds_names_verbatim_witness :
  exists pre post,
    html_document (fun _ => u "50.0") [apple]
    = pre ++ (u "<td>" ++ product_name apple ++ u "</td>" ++ nl) ++ post.
Proof.
  apply (@html_document_holds_names_verbatim (fun _ => u "50.0") [apple] apple).
  left. reflexivity.
Defined.

(** ** The console session *)

Lemma says_exit_eqb db (text : str) :
  str_eqb (lower db (strip text)) (u "exit") = true <-> says_exit db text.
Proof. apply str_eqb_eq. Qed.

Lemma main_loop_line db fuel text stdin data :
  ~ says_exit db text ->
  main_loop db (S fuel) (Line text :: stdin) data
  = option_map (fun later => respond db data text ++ later)
      (main_loop db fuel stdin data).
Proof.
  intros Hexit. cbn [main_loop]. unfold respond.
  destruct (str_eqb (lower db (strip text)) (u "exit")) eqn:E.
  - now apply says_exit_eqb in E.
  - destruct (lower db (strip text)) as [| c q];
      destruct (main_loop db fuel stdin data); reflexivity.
Qed.

Lemma main_loop_ends db (lines : list str) (last : keyboard) rest data fuel :
  (forall text, In text lines -> ~ says_exit db text) ->
  last = CtrlC \/ (exists text, last = Line text /\ says_exit db text) ->
  List.length lines < fuel ->
  main_loop db fuel (map Line lines ++ last :: rest) data
  = Some (flat_map (respond db data) lines
          ++ Prompt prompt
             :: match last with
                | CtrlC => [Print (nl ++ u "Программа завершена пользователем")]
                | Line _ => []
                end).
Proof.
  revert fuel. induction lines as [| text lines IH]; intros fuel Hlines Hlast Hfuel.
  - destruct fuel as [| fuel]; [inversion Hfuel |]. cbn [map app flat_map].
    destruct Hlast as [-> | [text [-> Hexit]]].
    + reflexivity.
    + cbn [main_loop]. apply says_exit_eqb in Hexit. now rewrite Hexit.
  - destruct fuel as [| fuel]; [inversion Hfuel |]. cbn [map app flat_map].
    rewrite main_loop_line by (apply Hlines; now left).
    rewrite IH.
    + cbn [option_map]. now rewrite <- app_assoc.
    + intros t Ht. apply Hlines. now right.
    + assumption.
    + simpl in Hfuel. lia.
Qed.

Lemma main_loop_end_of_input db (lines : list str) data fuel :
  (forall text, In text lines -> ~ says_exit db text) ->
  main_loop db fuel (map Line lines) data = None.
Proof.
  revert fuel. induction lines as [| text lines IH]; intros fuel Hlines.
  - induction fuel as [| fuel IHfuel]; [reflexivity |].
    cbn [map main_loop]. cbn [map] in IHfuel. now rewrite IHfuel.
  - destruct fuel as [| fuel]; [reflexivity |]. cbn [map].
    rewrite main_loop_line by (apply Hlines; now left).
    rewrite IH; [reflexivity |]. intros t Ht. apply Hlines. now right.
Qed.

(** X15.  When the prices load, a session ends at the first line that
    reads [exit] once stripped and lowered, or at the first interrupt,
    and what follows on the input is not read.  Up to there every line
    is answered in turn: a line that is blank once stripped gets the
    empty-query message and is not searched; any other line is searched
    stripped and lowered, the table is cleared, refilled with the
    results numbered from 1 and printed with their count, or the
    not-found message is printed.  After the loop the closing message
    is printed and the export is tried once, its failure being
    printed. *)
Theorem main_session_ends db float_str fs write (lines : list str)
        (last : keyboard) rest v data fuel :
  load_prices db fs (u "./") [] = (inr v, data) ->
  (forall text, In text lines -> ~ says_exit db text) ->
  last = CtrlC \/ (exists text, last = Line text /\ says_exit db text) ->
  List.length lines < fuel ->
  main db float_str fuel fs write (map Line lines ++ last :: rest)
  = Some
      ([TableFieldNames field_names;
        Print (u "Добро пожаловать в Анализатор прайс-листов!");
        Print (u "-------------------------------------------" ++ nl)]
       ++ flat_map (respond db data) lines
       ++ Prompt prompt
          :: match last with
             | CtrlC => [Print (nl ++ u "Программа завершена пользователем")]
             | Line _ => []
             end
       ++ [Print (u "Программа завершена")]
       ++ match write (u "output.html") (html_document float_str data) with
          | Some e => [PrintError (u "Ошибка при экспорте в HTML: ") (Exn e) []]
          | None => []
          end).
Proof.
  intros Hload Hlines Hlast Hfuel. unfold main. rewrite Hload.
  rewrite (@main_loop_ends db lines last rest data fuel Hlines Hlast Hfuel).
  unfold export_to_html.
  destruct (write (u "output.html") (html_document float_str data));
    rewrite <- !app_assoc; reflexivity.
Qed.

Lemma main_session_ends_witness :
  main basic_db (fun _ => u "50.0") 3 (directory (u "./") [apples_csv])
    (fun _ _ => None) (map Line [u "  "; u " ЯБЛОКО"] ++ Line (u "Exit ") :: [CtrlC])
  = Some
      ([TableFieldNames field_names;
        Print (u "Добро пожаловать в Анализатор прайс-листов!");
        Print (u "-------------------------------------------" ++ nl)]
       ++ flat_map (respond basic_db [apple]) [u "  "; u " ЯБЛОКО"]
       ++ Prompt prompt :: []
       ++ [Print (u "Программа завершена")]
       ++ []).
Proof.
  apply (@main_session_ends basic_db (fun _ => u "50.0")
           (directory (u "./") [apples_csv]) (fun _ _ => None)
           [u "  "; u " ЯБЛОКО"] (Line (u "Exit ")) [CtrlC]
           (VList [apple]) [apple] 3).
  - vm_compute. reflexivity.
  - intros text [<- | [<- | []]]; vm_compute; discriminate.
  - right. exists (u "Exit "). split; [reflexivity | vm_compute; reflexivity].
  - simpl. lia.
Defined.

Example session_finds_apple_whatever_the_case :
  respond basic_db [apple] (u " ЯБЛОКО")
  = [Prompt prompt; TableClearRows; TableAddRow 1 apple;
     Print (nl ++ u "Результат поиска по запросу " ++ quote ++ u "яблоко"
            ++ quote ++ u ":");
     TablePrint;
     Print (u "Найдено позиций: 1" ++ nl)].
Proof. vm_compute. reflexivity. Qed.

(** X16.  When the prices load and the input ends without a line that
    reads [exit] and without an interrupt, [main] never returns: the
    [EOFError] of [input] is caught with the other exceptions and the
    loop asks again, so that no number of iterations reaches the end of
    the loop and nothing is exported. *)
Theorem main_never_ends_at_end_of_input db float_str fs write
        (lines : list str) v data fuel :
  load_prices db fs (u "./") [] = (inr v, data) ->
  (forall text, In text lines -> ~ says_exit db text) ->
  main db float_str fuel fs write (map Line lines) = None.
Proof.
  intros Hload Hlines. unfold main. rewrite Hload.
  now rewrite (@main_loop_end_of_input db lines data fuel Hlines).
Qed.

Lemma main_never_ends_at_end_of_input_witness :
  main basic_db (fun _ => u "50.0") 1000 (directory (u "./") [apples_csv])
    (fun _ _ => None) (map Line [u "яблоко"])
  = None.
Proof.
  apply (@main_never_ends_at_end_of_input basic_db (fun _ => u "50.0")
           (directory (u "./") [apples_csv]) (fun _ _ => None) [u "яблоко"]
           (VList [apple]) [apple] 1000).
  - vm_compute. reflexivity.
  - intros text [<- | []]. vm_compute. discriminate.
Defined.

(** ** Stripping and lowering commute *)

Lemma lstrip_blank_app (w s : str) : blank w -> lstrip (w ++ s) = lstrip s.
Proof.
  induction 1 as [| c w Hc _ IH]; simpl; [reflexivity | now rewrite Hc].
Qed.

Lemma lstrip_blank (w : str) : blank w -> lstrip w = [].
Proof.
  intros H. rewrite <- (app_nil_r w). now rewrite lstrip_blank_app.
Qed.

Lemma lstrip_fixed (s : str) :
  (forall c t, s = c :: t -> is_space c = false) -> lstrip s = s.
Proof.
  destruct s as [| c t]; [reflexivity |]. intros H. simpl.
  now rewrite (H c t eq_refl).
Qed.

Lemma lstrip_split (s : str) : exists w, s = w ++ lstrip s /\ blank w.
Proof.
  induction s as [| a s [w [IH Hw]]]; simpl.
  - exists []. split; [reflexivity | constructor].
  - destruct (is_space a) eqn:Ha.
    + exists (a :: w). split; [simpl; now rewrite <- IH | now constructor].
    + exists []. split; [reflexivity | constructor].
Qed.

Lemma blank_rev (w : str) : blank w -> blank (rev w).
Proof. unfold blank. apply Forall_rev. Qed.

Lemma strip_split (s : str) :
  exists w1 w2, s = w1 ++ strip s ++ w2 /\ blank w1 /\ blank w2.
Proof.
  unfold strip, rstrip. destruct (lstrip_split s) as [w1 [H1 Hw1]].
  destruct (lstrip_split (rev (lstrip s))) as [w2 [H2 Hw2]].
  exists w1, (rev w2). repeat split.
  - rewrite <- rev_app_distr, <- H2, rev_involutive. exact H1.
  - assumption.
  - now apply blank_rev.
Qed.

Lemma strip_of_padded (w1 t w2 : str) :
  blank w1 -> blank w2 -> no_outer_space t -> strip (w1 ++ t ++ w2) = t.
Proof.
  intros Hw1 Hw2 [Hfirst Hlast]. unfold strip, rstrip.
  rewrite lstrip_blank_app by assumption.
  destruct t as [| c t'].
  - simpl. rewrite (lstrip_blank Hw2). reflexivity.
  - assert (E : lstrip ((c :: t') ++ w2) = (c :: t') ++ w2).
    { apply lstrip_fixed. intros d r H. simpl in H. injection H as <- _.
      now apply (Hfirst c t'). }
    rewrite E, rev_app_distr, (lstrip_blank_app _ (blank_rev Hw2)).
    rewrite lstrip_fixed; [apply rev_involutive |].
    intros d r Hrev. apply (Hlast d (rev r)).
    rewrite <- (rev_involutive (c :: t')), Hrev. reflexivity.
Qed.

Section LowerFacts.

Variable db : unicode_db.
Hypothesis Hdb : spaces_apart db.

Lemma space_not_sigma (c : codepoint) :
  is_space c = true -> (c =? capital_sigma)%N = false.
Proof.
  intros H. apply N.eqb_neq. intros ->. discriminate.
Qed.

Lemma preceded_app_blank (b w : str) :
  blank w ->
  match first_not_ignorable db (b ++ w) with
  | Some c => is_cased db c
  | None => false
  end
  = match first_not_ignorable db b with
    | Some c => is_cased db c
    | None => false
    end.
Proof.
  intros Hw. induction b as [| a b IH]; simpl.
  - destruct Hw as [| c w Hc _]; [reflexivity |]. simpl.
    destruct (proj1 Hdb c Hc) as [_ [Hcased Hign]]. now rewrite Hign.
  - destruct (is_case_ignorable db a); [exact IH | reflexivity].
Qed.

Lemma followed_app_blank (a w : str) :
  blank w ->
  match first_not_ignorable db (a ++ w) with
  | Some c => negb (is_cased db c)
  | None => true
  end
  = match first_not_ignorable db a with
    | Some c => negb (is_cased db c)
    | None => true
    end.
Proof.
  intros Hw. induction a as [| x a IH]; simpl.
  - destruct Hw as [| c w Hc _]; [reflexivity |]. simpl.
    destruct (proj1 Hdb c Hc) as [_ [Hcased Hign]]. now rewrite Hign, Hcased.
  - destruct (is_case_ignorable db x); [exact IH | reflexivity].
Qed.

Lemma do_lower_before_blank (w s b : str) :
  blank w -> do_lower db (b ++ w) s = do_lower db b s.
Proof.
  intros Hw. revert b. induction s as [| c t IH]; intros b; cbn [do_lower].
  - reflexivity.
  - change (c :: b ++ w) with ((c :: b) ++ w). rewrite (IH (c :: b)).
    unfold handle_capital_sigma. now rewrite preceded_app_blank.
Qed.

Lemma do_lower_blank (w b : str) : blank w -> do_lower db b w = w.
Proof.
  intros Hw. revert b. induction Hw as [| c w Hc _ IH]; intros b;
    cbn [do_lower].
  - reflexivity.
  - rewrite (@space_not_sigma c Hc), IH.
    destruct (proj1 Hdb c Hc) as [-> _]. reflexivity.
Qed.

Lemma do_lower_app_blank (s w b : str) :
  blank w -> do_lower db b (s ++ w) = do_lower db b s ++ w.
Proof.
  intros Hw. revert b. induction s as [| c t IH]; intros b;
    cbn [app do_lower].
  - now apply do_lower_blank.
  - rewrite IH, app_assoc. unfold handle_capital_sigma.
    now rewrite followed_app_blank.
Qed.

Lemma do_lower_blank_app (w s b : str) :
  blank w -> do_lower db b (w ++ s) = w ++ do_lower db (rev w ++ b) s.
Proof.
  intros Hw. revert b. induction Hw as [| c w Hc _ IH]; intros b;
    cbn [app do_lower rev].
  - reflexivity.
  - rewrite (@space_not_sigma c Hc), IH, <- app_assoc.
    destruct (proj1 Hdb c Hc) as [-> _]. reflexivity.
Qed.

Lemma lower_padded (w1 t w2 : str) :
  blank w1 -> blank w2 ->
  lower db (w1 ++ t ++ w2) = w1 ++ lower db t ++ w2.
Proof.
  intros Hw1 Hw2. unfold lower.
  rewrite do_lower_blank_app, do_lower_app_blank by assumption.
  rewrite app_nil_r.
  pose proof (@do_lower_before_blank (rev w1) t [] (blank_rev Hw1)) as E.
  cbn [app] in E. now rewrite E.
Qed.

(** What one character that is no white space becomes is not empty and
    holds no white space. *)
Lemma lowered_char (c : codepoint) (before after : str) :
  is_space c = false ->
  exists d ds,
    (if (c =? capital_sigma)%N then [handle_capital_sigma db before after]
     else to_lower_full db c) = d :: ds /\
    Forall (fun x => is_space x = false) (d :: ds).
Proof.
  intros Hc. destruct (c =? capital_sigma)%N.
  - eexists _, []. split; [reflexivity |]. constructor; [| constructor].
    unfold handle_capital_sigma.
    match goal with |- is_space (if ?b then _ else _) = _ => destruct b end;
      reflexivity.
  - destruct (proj2 Hdb c Hc) as [Hne Hall].
    destruct (to_lower_full db c) as [| d ds]; [now elim Hne |].
    now exists d, ds.
Qed.

Lemma do_lower_snoc (s : str) (c : codepoint) (b : str) :
  is_space c = false ->
  exists x d, do_lower db b (s ++ [c]) = x ++ [d] /\ is_space d = false.
Proof.
  intros Hc. revert b. induction s as [| a s IH]; intros b.
  - cbn [app do_lower]. rewrite app_nil_r.
    destruct (@lowered_char c b [] Hc) as [d [ds [-> Hall]]].
    destruct (@exists_last _ (d :: ds)) as [x [e He]]; [discriminate |].
    exists x, e. split; [assumption |].
    rewrite He in Hall. apply Forall_app in Hall as [_ Hall].
    now inversion Hall.
  - cbn [app do_lower]. destruct (IH (a :: b)) as [x [d [-> Hd]]].
    eexists (_ ++ x), d. split; [now rewrite app_assoc | assumption].
Qed.

Lemma lower_no_outer_space (t : str) :
  no_outer_space t -> no_outer_space (lower db t).
Proof.
  intros [Hfirst Hlast]. unfold lower. split.
  - intros d r H. destruct t as [| c t']; [discriminate |].
    cbn [do_lower] in H.
    destruct (@lowered_char c [] t' (Hfirst c t' eq_refl)) as [e [es [He Hall]]].
    rewrite He in H. injection H as <- _. now inversion Hall.
  - intros d r H. destruct (@exists_last _ t) as [t' [c Ht]].
    + intros ->. destruct r; discriminate.
    + subst t.
      destruct (@do_lower_snoc t' c [] (Hlast c t' eq_refl)) as [x [e [Hx He]]].
      rewrite Hx in H. apply app_inj_tail in H as [_ <-]. assumption.
Qed.

Lemma lower_strip_commute (s : str) :
  lower db (strip s) = strip (lower db s).
Proof.
  destruct (strip_split s) as [w1 [w2 [Hs [Hw1 Hw2]]]].
  rewrite Hs at 2. rewrite lower_padded by assumption.
  rewrite strip_of_padded; try assumption; [reflexivity |].
  apply lower_no_outer_space, strip_no_outer_space.
Qed.

End LowerFacts.

(** X17.  A record is found by the text of its own name cell, typed as
    it stands in the file: [main] strips and then lowers the line,
    [load_prices] lowers and then strips the cell, and both give the
    same text, so [find_text] returns the record for that query. *)
Theorem typed_cell_finds_record db data item cell :
  spaces_apart db ->
  In item data ->
  product_name item = strip (lower db cell) ->
  lower db (strip cell) = product_name item /\
  In item (find_text data (lower db (strip cell))).
Proof.
  intros Hdb Hin Hname.
  assert (E : lower db (strip cell) = product_name item)
    by (rewrite Hname; now apply lower_strip_commute).
  split; [assumption |]. rewrite E. apply find_text_In.
  split; [assumption |]. apply str_contains_substring.
  exists [], []. now rewrite app_nil_r.
Qed.

Lemma basic_db_spaces_apart : spaces_apart basic_db.
Proof.
  split.
  - intros c Hc. unfold is_space in Hc.
    rewrite !orb_true_iff, !andb_true_iff, !N.leb_le, !N.eqb_eq in Hc.
    repeat split.
    + apply basic_to_lower_fixed; unfold in_range, capital_sigma;
        rewrite ?andb_false_iff, ?N.leb_gt; lia.
    + simpl. unfold in_range, capital_sigma, small_final_sigma, small_sigma.
      rewrite !orb_false_iff, !andb_false_iff, !N.leb_gt. lia.
    + simpl. rewrite !orb_false_iff, !N.eqb_neq. lia.
  - intros c Hc. simpl. unfold basic_to_lower.
    destruct (in_range 0x41%N 0x5A%N c) eqn:H1;
      [| destruct (in_range 0x400%N 0x40F%N c) eqn:H2;
         [| destruct (in_range 0x410%N 0x42F%N c) eqn:H3;
            [| destruct (c =? capital_sigma)%N eqn:H4]]];
      (split; [discriminate |]);
      (constructor; [| constructor]);
      try assumption; try reflexivity;
      unfold in_range in *; unfold is_space;
      rewrite ?andb_true_iff, ?N.leb_le in *;
      rewrite !orb_false_iff, !andb_false_iff, !N.leb_gt, !N.eqb_neq; lia.
Defined.

Lemma typed_cell_finds_record_witness :
  lower basic_db (strip (u "  Яблоко Красное ")) = product_name (nth 0 fruits apple)
  /\ In (nth 0 fruits apple)
        (find_text fruits (lower basic_db (strip (u "  Яблоко Красное ")))).
Proof.
  apply (@typed_cell_finds_record basic_db fruits (nth 0 fruits apple)
           (u "  Яблоко Красное ") basic_db_spaces_apart).
  - vm_compute. left. reflexivity.
  - vm_compute. reflexivity.
Defined.

(** ** The table of results *)

Lemma add_rows_nth (results : list data_row) (index : Z) (k : nat) (r : data_row) :
  nth_error results k = Some r ->
  nth_error (add_rows index results) k = Some (TableAddRow (index + Z.of_nat k) r).
Proof.
  revert index k. induction results as [| a rest IH]; intros index k H.
  - destruct k; discriminate.
  - destruct k as [| k]; cbn [add_rows nth_error] in *.
    + injection H as <-. now rewrite Z.add_0_r.
    + rewrite (IH (index + 1)%Z k H). do 2 f_equal. lia.
Qed.

(** X18.  [display_search_results] first clears the table, so that no
    row of an earlier query stays, and then adds the results in their
    order: the result at position [k], counted from 0, is added as the
    row numbered [k + 1]. *)
Theorem display_numbers_results results search_query k r :
  nth_error results k = Some r ->
  nth_error (display_search_results results search_query) 0
  = Some TableClearRows /\
  nth_error (display_search_results results search_query) (S k)
  = Some (TableAddRow (Z.of_nat k + 1) r).
Proof.
  intros H. split; [reflexivity |].
  unfold display_search_results. destruct results as [| a rest].
  - destruct k; discriminate.
  - cbn [nth_error]. rewrite nth_error_app1.
    + rewrite (add_rows_nth _ 1 _ H). f_equal. f_equal. lia.
    + apply nth_error_Some. rewrite (add_rows_nth _ 1 _ H). discriminate.
Qed.

Lemma display_numbers_results_witness :
  nth_error (display_search_results (find_text fruits (u "ябло")) (u "ябло")) 0
  = Some TableClearRows /\
  nth_error (display_search_results (find_text fruits (u "ябло")) (u "ябло")) 3
  = Some (TableAddRow (Z.of_nat 2 + 1) (nth 3 fruits apple)).
Proof.
  apply (@display_numbers_results (find_text fruits (u "ябло")) (u "ябло") 2
           (nth 3 fruits apple)).
  vm_compute. reflexivity.
Defined.

(** ** A run without prices *)

(** X19.  When the working directory does not exist, or is listed and
    holds no entry that contains ["price"] and ends with [".csv"],
    [main] prints the error of [load_prices] and returns: it never
    prompts, reads no input, and exports nothing, whatever the keyboard
    sends. *)
Theorem main_without_prices db float_str fs write stdin fuel :
  path_exists fs (u "./") = false \/
  (path_exists fs (u "./") = true /\
   exists entries,
     listdir fs (u "./") = inr entries /\
     forall file, In file entries ->
       ~ ((exists pre post, file = pre ++ u "price" ++ post) /\
          (exists pre, file = pre ++ u ".csv"))) ->
  exists e,
    main db float_str fuel fs write stdin
    = Some [TableFieldNames field_names;
            PrintError (u "Ошибка при загрузке данных: ") (Exn e) []].
Proof.
  intros [Hmissing | [Hexists [entries [Hlist Hnone]]]]; unfold main, load_prices.
  - rewrite Hmissing. now exists FileNotFoundError.
  - rewrite Hexists, Hlist. cbn [negb].
    destruct (filter is_price_file entries) as [| file files] eqn:Hfilter.
    + now exists ValueError.
    + assert (Hin : In file (filter is_price_file entries))
        by (rewrite Hfilter; now left).
      apply filter_In in Hin as [Hin Hprice].
      apply is_price_file_spec in Hprice. now elim (Hnone file Hin).
Qed.

Lemma main_without_prices_witness :
  exists e,
    main basic_db (fun _ => u "50.0") 0 (directory (u "./") other_files)
      (fun _ _ => None) [Line (u "яблоко")]
    = Some [TableFieldNames field_names;
            PrintError (u "Ошибка при загрузке данных: ") (Exn e) []].
Proof.
  apply (@main_without_prices basic_db (fun _ => u "50.0")
           (directory (u "./") other_files) (fun _ _ => None)
           [Line (u "яблоко")] 0).
  right. split; [vm_compute; reflexivity |].
  exists (map fst other_files). split; [vm_compute; reflexivity |].
  intros file Hin [Hc He].
  apply str_contains_substring in Hc. apply endswith_suffix in He.
  destruct Hin as [<- | [<- | [<- | []]]]; vm_compute in Hc, He; discriminate.
Defined.
